(** * FireCMS: reference dialog, collection table and schema editor

    A shallow embedding of the state-management logic of the FireCMS
    admin panel: the reference/selection dialog, the bulk actions of the
    entity collection table, the schema editor form and its property tree.

    React components are embedded as explicit state-transition functions:
    a handler takes the props and the current state and returns the next
    state together with the list of outgoing calls it performed, in order.
    Optional callback props are embedded by recording whether the prop was
    supplied. *)

From Stdlib Require Import Ascii.
From stdpp Require Import base option list strings gmap fin_maps.

Open Scope string_scope.
Open Scope list_scope.

(** ** Entities *)

(** [Entity<M>]: a record fetched from the data source.  Property values
    are kept as an uninterpreted finite map. *)
Record Entity := mkEntity {
  id : string;
  path : string;
  values : gmap string string
}.

(** ** The reference dialog (the ReferenceDialog component) *)

Module ReferenceDialog.

(** The props of the dialog.  [onSingleEntitySelected],
    [onMultipleEntitiesSelected] and [onClose] are optional callbacks:
    the field is [true] when the callback was supplied.  [collection] is
    [true] when the collection config is present. *)
Record ReferenceDialogProps := mkProps {
  multiselect : bool;
  collection : bool;
  selectedEntityIds : option (list string);
  onSingleEntitySelected : bool;
  onMultipleEntitiesSelected : bool;
  onClose : bool
}.

(** Calls made by the dialog to its environment. *)
Inductive Call :=
| SingleEntitySelected (entity : option Entity)
| MultipleEntitiesSelected (entities : list Entity)
| SideDialogClose
| Closed.

(** [useState<Entity[] | undefined>()]: [None] is [undefined]. *)
Record State := mkState {
  selectedEntities : option (list Entity)
}.

Definition initialState : State := {| selectedEntities := None |}.

(** [selectedEntities.map((e) => e.id).indexOf(entity.id) > -1] *)
Definition isSelectedIn (sel : list Entity) (entity : Entity) : bool :=
  bool_decide (id entity ∈ map id sel).

Definition onClear (props : ReferenceDialogProps) (st : State) : State * list Call :=
  if negb (multiselect props) && onSingleEntitySelected props then
    (st, [SingleEntitySelected None])
  else if onMultipleEntitiesSelected props then
    (st, [MultipleEntitiesSelected []])
  else (st, []).

Definition toggleEntitySelection (props : ReferenceDialogProps) (st : State)
    (entity : Entity) : State * list Call :=
  match selectedEntities st with
  | Some sel =>
      let newValue :=
        if isSelectedIn sel entity
        then filter (λ item, id item ≠ id entity) sel
        else sel ++ [entity] in
      ({| selectedEntities := Some newValue |},
       if onMultipleEntitiesSelected props
       then [MultipleEntitiesSelected newValue] else [])
  | None => (st, [])
  end.

Definition onEntityClick (props : ReferenceDialogProps) (st : State)
    (entity : Entity) : State * list Call :=
  if negb (multiselect props) && onSingleEntitySelected props then
    (st, [SingleEntitySelected (Some entity); SideDialogClose])
  else toggleEntitySelection props st entity.

Definition onDone (props : ReferenceDialogProps) (st : State) : State * list Call :=
  (st, SideDialogClose :: (if onClose props then [Closed] else [])).

(** [tableRowActionsBuilder]: the selection mark of a row.  [None] is the
    [undefined] of [selectedEntities && ...]. *)
Definition isSelected (st : State) (entity : Entity) : option bool :=
  (λ sel, isSelectedIn sel entity) <$> selectedEntities st.

(** The table, and with it every clickable row and the Clear button, is
    rendered only under [selectedEntities && ...], and only when the
    collection is present. *)
Definition tableRendered (props : ReferenceDialogProps) (st : State) : bool :=
  collection props && bool_decide (is_Some (selectedEntities st)).

(** *** The effect that fetches the initially selected ids *)

(** How one [dataSource.fetchEntity] promise settles: fulfilled with an
    entity, fulfilled with [undefined] (not found), or rejected. *)
Inductive FetchOutcome :=
| Fulfilled (entity : option Entity)
| Rejected.

(** The state of the effect: one slot per requested id ([None] while the
    fetch is in flight), whether the [then] of [Promise.all] has run,
    the [unmounted] guard, and the component state. *)
Record EffectState := mkEffect {
  slots : list (option FetchOutcome);
  delivered : bool;
  unmounted : bool;
  dialog : State
}.

(** The value [Promise.all] resolves with: defined only once every slot
    is fulfilled, in the order of the requested ids. *)
Fixpoint allFulfilled (ss : list (option FetchOutcome)) : option (list (option Entity)) :=
  match ss with
  | [] => Some []
  | Some (Fulfilled e) :: ss' => cons e <$> allFulfilled ss'
  | _ :: _ => None
  end.

(** [entities.filter(e => e !== undefined)] *)
Definition definedEntities (es : list (option Entity)) : list Entity :=
  omap (λ e, e) es.

(** The [then] callback of [Promise.all], run at most once. *)
Definition deliver (s : EffectState) : EffectState :=
  if delivered s then s else
  match allFulfilled (slots s) with
  | Some entities =>
      {| slots := slots s; delivered := true; unmounted := unmounted s;
         dialog := if unmounted s then dialog s
                   else {| selectedEntities := Some (definedEntities entities) |} |}
  | None => s
  end.

(** Running the effect body: either every fetch is issued at once and
    [Promise.all] awaits them (it resolves at once for an empty list), or
    the selection is set to the empty list. *)
Definition startEffect (props : ReferenceDialogProps) (st : State) : EffectState :=
  match selectedEntityIds props with
  | Some ids =>
      if collection props then
        deliver {| slots := map (λ _, None) ids; delivered := false;
                   unmounted := false; dialog := st |}
      else
        {| slots := []; delivered := true; unmounted := false;
           dialog := {| selectedEntities := Some [] |} |}
  | None =>
      {| slots := []; delivered := true; unmounted := false;
         dialog := {| selectedEntities := Some [] |} |}
  end.

(** Events of the effect: the fetch in slot [i] settles, or the
    component is torn down. *)
Inductive EffectEvent :=
| Settle (i : nat) (o : FetchOutcome)
| Unmount.

Definition effectStep (s : EffectState) (ev : EffectEvent) : EffectState :=
  match ev with
  | Settle i o =>
      match slots s !! i with
      | Some None =>
          deliver {| slots := <[i := Some o]> (slots s); delivered := delivered s;
                     unmounted := unmounted s; dialog := dialog s |}
      | _ => s
      end
  | Unmount =>
      {| slots := slots s; delivered := delivered s; unmounted := true;
         dialog := dialog s |}
  end.

Definition effectRun (s : EffectState) (evs : list EffectEvent) : EffectState :=
  foldl effectStep s evs.

End ReferenceDialog.

(** ** The collection table (core/components/EntityCollectionTable.tsx) *)

Module EntityCollectionTable.

(** The two renderings of the bulk-delete control: a [Button] on large
    layouts, an [IconButton] otherwise. *)
Inductive ButtonKind := LargeButton | SmallIconButton.

Record DeleteButton := mkDeleteButton {
  kind : ButtonKind;
  tooltip : string;
  disabled : bool;
  shownCount : option nat
}.

Section Toolbar.

(** [canDelete(collectionConfig.permissions, entity, authController, path,
    context)] with everything but the entity fixed by the render. *)
Variable canDelete : Entity → bool.

(** [selectedEntities.every((entity) => canDelete(...))] *)
Definition multipleDeleteEnabled (selectedEntities : list Entity) : bool :=
  forallb canDelete selectedEntities.

(** [!(selectedEntities?.length) || !multipleDeleteEnabled] *)
Definition multipleDeleteDisabled (selectedEntities : list Entity) : bool :=
  negb (negb (length selectedEntities =? 0)%nat)
  || negb (multipleDeleteEnabled selectedEntities).

(** [multipleDeleteButton] of [toolbarActionsBuilder]: [None] when
    [selectionEnabled] is false and nothing is rendered. *)
Definition multipleDeleteButton (selectionEnabled largeLayout : bool)
    (selectedEntities : list Entity) : option DeleteButton :=
  if selectionEnabled then
    Some {| kind := if largeLayout then LargeButton else SmallIconButton;
            tooltip := if multipleDeleteEnabled selectedEntities
                       then "Multiple delete"
                       else "You have selected one entity you cannot delete";
            disabled := multipleDeleteDisabled selectedEntities;
            shownCount := if largeLayout then Some (length selectedEntities)
                          else None |}
  else None.

End Toolbar.

End EntityCollectionTable.

(** ** Properties (models) *)

Module Models.

(** [PropertyOrBuilder]: a concrete property, with its title, its
    [dataType] and (for maps) the nested mapping of child properties in
    key order, or an opaque builder function. *)
#[warnings="-register-all"]
Inductive PropertyOrBuilder :=
| Builder (handle : nat)
| Property (title : string) (dataType : string)
    (properties : list (string * PropertyOrBuilder)).

(** [typeof p === "function"] *)
Definition isFunction (p : option PropertyOrBuilder) : bool :=
  match p with Some (Builder _) => true | _ => false end.

(** [typeof p === "object" && p.dataType === "map"] *)
Definition isMapProperty (p : option PropertyOrBuilder) : bool :=
  match p with
  | Some (Property _ dataType _) => bool_decide (dataType = "map")
  | _ => false
  end.

Fixpoint PropertyOrBuilder_eqb (a b : PropertyOrBuilder) {struct a} : bool :=
  match a, b with
  | Builder h, Builder h' => bool_decide (h = h')
  | Property t dt ps, Property t' dt' ps' =>
      bool_decide (t = t') && bool_decide (dt = dt') &&
      (fix go (l l' : list (string * PropertyOrBuilder)) {struct l} : bool :=
         match l, l' with
         | [], [] => true
         | (k, c) :: r, (k', c') :: r' =>
             bool_decide (k = k') && PropertyOrBuilder_eqb c c' && go r r'
         | _, _ => false
         end) ps ps'
  | _, _ => false
  end.

(** Induction over a property and the properties nested in it. *)
Lemma PropertyOrBuilder_nested_ind (P : PropertyOrBuilder → Prop) :
  (∀ h, P (Builder h)) →
  (∀ t dt ps, Forall (λ kc, P kc.2) ps → P (Property t dt ps)) →
  ∀ p, P p.
Proof.
  intros Hb Hp. fix IH 1. intros [h | t dt ps].
  - apply Hb.
  - apply Hp. induction ps as [| [k c] ps IHps]; constructor.
    + apply IH.
    + apply IHps.
Qed.

Lemma PropertyOrBuilder_eqb_eq a b : PropertyOrBuilder_eqb a b = true ↔ a = b.
Proof.
  revert b. induction a as [h | t dt ps IH] using PropertyOrBuilder_nested_ind;
    intros [h' | t' dt' ps']; simpl; try (split; [discriminate | congruence]).
  - rewrite bool_decide_eq_true. split; congruence.
  - rewrite !andb_true_iff, !bool_decide_eq_true.
    match goal with |- context [?g ps ps' = true] => set (go := g) end.
    assert (Hgo : go ps ps' = true ↔ ps = ps').
    { clear t dt t' dt'. revert ps'.
      induction IH as [| [k c] r Hc _ IHr]; intros [| [k' c'] r']; simpl;
        try (split; [discriminate | congruence]); [done |].
      simpl in Hc. rewrite !andb_true_iff, bool_decide_eq_true, (Hc c'), IHr.
      split; [intros [[-> ->] ->]; done | intros [= -> -> ->]; done]. }
    rewrite Hgo. split; [intros [[-> ->] ->]; done | intros [= -> -> ->]; done].
Qed.

#[global] Instance PropertyOrBuilder_eq_dec : EqDecision PropertyOrBuilder.
Proof.
  intros a b. destruct (PropertyOrBuilder_eqb a b) eqn:E.
  - left. by apply PropertyOrBuilder_eqb_eq.
  - right. intros H. apply PropertyOrBuilder_eqb_eq in H. congruence.
Defined.

End Models.

(** ** The tree of the drag-and-drop view (Tree) *)

Module Tree.
Import Models.

(** Item ids: the synthetic root, or a property addressed by its dotted
    path.  The root is kept apart from every path, as [TreeData] requires
    that the root always exists and carries no property. *)
Inductive ItemId :=
| RootId
| PathId (path : string).

#[global] Instance ItemId_eq_dec : EqDecision ItemId.
Proof. solve_decision. Defined.

#[global] Instance ItemId_countable : Countable ItemId.
Proof.
  refine (inj_countable'
    (λ i, match i with RootId => None | PathId p => Some p end)
    (λ o, match o with None => RootId | Some p => PathId p end) _).
  by intros [].
Defined.

Record TreeItemData := mkData {
  property : option PropertyOrBuilder
}.

Record TreeItem := mkItem {
  id : ItemId;
  children : list ItemId;
  data : TreeItemData
}.

Record TreeData := mkTree {
  rootId : ItemId;
  items : gmap ItemId TreeItem
}.

Record TreeSourcePosition := mkSource {
  src_parentId : ItemId;
  src_index : nat
}.

(** [index] is optional in a destination. *)
Record TreeDestinationPosition := mkDestination {
  dst_parentId : ItemId;
  dst_index : option nat
}.

Definition withChildren (item : TreeItem) (cs : list ItemId) : TreeItem :=
  {| id := id item; children := cs; data := data item |}.

(** Modelled from the spec: [moveItemOnTree] of the Tree module, which is
    not part of the sources at hand.  The item at the source position is
    removed from the child list of the source parent and inserted into
    the child list of the destination parent at the destination index;
    items are not touched otherwise, so a moved subtree is carried along
    intact.  A destination without index appends.  [None] when a
    position addresses nothing. *)
Definition moveItemOnTree (tree : TreeData) (source : TreeSourcePosition)
    (destination : TreeDestinationPosition) : option TreeData :=
  sourceParent ← items tree !! src_parentId source;
  moved ← children sourceParent !! src_index source;
  let removed :=
    <[src_parentId source :=
        withChildren sourceParent (delete (src_index source) (children sourceParent))]>
      (items tree) in
  destinationParent ← removed !! dst_parentId destination;
  let cs := children destinationParent in
  let i := default (length cs) (dst_index destination) in
  Some {| rootId := rootId tree;
          items := <[dst_parentId destination :=
                       withChildren destinationParent (take i cs ++ moved :: drop i cs)]>
                     removed |}.

End Tree.

(** ** Properties to tree and back (schema_editor/util, util/strings) *)

Module SchemaUtil.
Import Models Tree.

Definition isDot (c : ascii) : bool := bool_decide (c = "."%char).

(** A key that is one path segment: it holds no dot. *)
Fixpoint dotFree (s : string) : bool :=
  match s with
  | EmptyString => true
  | String c s' => negb (isDot c) && dotFree s'
  end.

(** The text after the last dot of a path (the whole path when it has no
    dot), as [path.split(".").pop()]. *)
Fixpoint lastSegment (s : string) : string :=
  match s with
  | EmptyString => EmptyString
  | String c s' =>
      if negb (dotFree s') then lastSegment s'
      else if isDot c then s' else s
  end.

(** [`${prefix}.${key}`] *)
Definition dotted (prefix key : string) : string :=
  prefix +:+ "." +:+ key.

(** Modelled from the spec: the tree items of one property, which
    [propertiesToTree] (schema_editor/util, not part of the sources at
    hand) produces: one item for the property itself, keyed by its dotted
    path, and, if it is map-typed, the items of its nested properties in
    their own key order. *)
Fixpoint propertyToTreeItems (fullKey : string) (p : PropertyOrBuilder)
    {struct p} : list (ItemId * TreeItem) :=
  match p with
  | Builder _ =>
      [(PathId fullKey,
        {| id := PathId fullKey; children := []; data := {| property := Some p |} |})]
  | Property _ dataType ps =>
      if bool_decide (dataType = "map") then
        (PathId fullKey,
         {| id := PathId fullKey;
            children := map (λ kc, PathId (dotted fullKey kc.1)) ps;
            data := {| property := Some p |} |})
        :: flat_map (λ kc, propertyToTreeItems (dotted fullKey kc.1) kc.2) ps
      else
        [(PathId fullKey,
          {| id := PathId fullKey; children := []; data := {| property := Some p |} |})]
  end.

(** Modelled from the spec: [propertiesToTree] composed with
    [sortProperties] (both not part of the sources at hand), the [toTree]
    of the spec.  The order list is walked top-down; the root item lists
    the top-level keys in that order. *)
Definition propertiesToTree (properties : gmap string PropertyOrBuilder)
    (order : list string) : TreeData :=
  {| rootId := RootId;
     items :=
       <[RootId := {| id := RootId; children := map PathId order;
                      data := {| property := None |} |}]>
         (list_to_map
            (flat_map (λ k, match properties !! k with
                            | Some p => propertyToTreeItems k p
                            | None => []
                            end) order)) |}.

(** Modelled from the spec: the key a tree item stands for under its
    parent, the last segment of its dotted path.  The root is no
    property. *)
Definition itemKey (i : ItemId) : option string :=
  match i with
  | RootId => None
  | PathId path => Some (lastSegment path)
  end.

(** Modelled from the spec: the property an item of the tree stands for,
    rebuilt depth-first: a map property takes its nested mapping from
    the children of its item.  The recursion follows the ids stored in
    the tree; [fuel] bounds its depth. *)
Fixpoint treeItemToProperty (fuel : nat) (its : gmap ItemId TreeItem)
    (i : ItemId) : option PropertyOrBuilder :=
  match fuel with
  | O => None
  | S fuel' =>
      item ← its !! i;
      p ← property (data item);
      match p with
      | Builder _ => Some p
      | Property title dataType _ =>
          if bool_decide (dataType = "map") then
            nested ← mapM (λ c, k ← itemKey c;
                                q ← treeItemToProperty fuel' its c;
                                Some (k, q)) (children item);
            Some (Property title dataType nested)
          else Some p
      end
  end.

(** Modelled from the spec: [treeToProperties] (schema_editor/util, not
    part of the sources at hand), the [fromTree] of the spec: the
    top-level mapping and order are read off the children of the root.
    No path of a tree is longer than the tree has items, which bounds
    the recursion. *)
Definition treeToProperties (tree : TreeData)
    : option (gmap string PropertyOrBuilder * list string) :=
  root ← items tree !! rootId tree;
  entries ← mapM (λ c, k ← itemKey c;
                       q ← treeItemToProperty (size (items tree)) (items tree) c;
                       Some (k, q)) (children root);
  Some (list_to_map entries, entries.*1).

(** The invariant of [EntitySchema]: every key of the order list is a key
    of the mapping and the other way round. *)
Definition schemaInvariant (properties : gmap string PropertyOrBuilder)
    (order : list string) : bool :=
  bool_decide (list_to_set order = dom properties).

(** A nested mapping is a list of entries here.  [keysOnce] tells that
    the list is a mapping: below the map properties of [p], no list
    holds a key twice. *)
Fixpoint keysOnce (p : PropertyOrBuilder) : bool :=
  match p with
  | Builder _ => true
  | Property _ dataType ps =>
      negb (bool_decide (dataType = "map"))
      || (bool_decide (NoDup ps.*1) && forallb (λ kc, keysOnce kc.2) ps)
  end.

Definition nestedMappings (properties : gmap string PropertyOrBuilder) : bool :=
  bool_decide (map_Forall (λ _ p, keysOnce p = true) properties).

(** The keys below the map properties of [p] are path segments: they
    hold no dot. *)
Fixpoint segmentsBelow (p : PropertyOrBuilder) : bool :=
  match p with
  | Builder _ => true
  | Property _ dataType ps =>
      negb (bool_decide (dataType = "map"))
      || forallb (λ kc, dotFree kc.1 && segmentsBelow kc.2) ps
  end.

(** Every key is one path segment, at the top level and below the map
    properties. *)
Definition singleSegmentKeys (properties : gmap string PropertyOrBuilder)
    : bool :=
  bool_decide (map_Forall (λ k p, dotFree k && segmentsBelow p = true) properties).

(** Both at once, level by level. *)
Fixpoint wfProperty (p : PropertyOrBuilder) : bool :=
  match p with
  | Builder _ => true
  | Property _ dataType ps =>
      negb (bool_decide (dataType = "map"))
      || (bool_decide (NoDup ps.*1)
          && forallb (λ kc, dotFree kc.1 && wfProperty kc.2) ps)
  end.

Definition isUpper (c : ascii) : bool :=
  let n := nat_of_ascii c in (65 <=? n)%nat && (n <=? 90)%nat.

Definition isLowerOrDigit (c : ascii) : bool :=
  let n := nat_of_ascii c in
  ((97 <=? n)%nat && (n <=? 122)%nat) || ((48 <=? n)%nat && (n <=? 57)%nat).

Definition toLower (c : ascii) : ascii :=
  if isUpper c then ascii_of_nat (nat_of_ascii c + 32) else c.

(** The words of a name, in lower case and joined by underscores.
    [pending] tells that a word was closed and a separator is due before
    the next word character. *)
Fixpoint snakeWords (started pending : bool) (s : string) : string :=
  match s with
  | EmptyString => EmptyString
  | String c s' =>
      if isUpper c || isLowerOrDigit c then
        if started && pending
        then String "_" (String (toLower c) (snakeWords true false s'))
        else String (toLower c) (snakeWords true false s')
      else snakeWords started true s'
  end.

(** Modelled from the spec: [toSnakeCase] (util/strings, not part of the
    sources at hand), the slug transformation of a name: the maximal runs
    of letters and digits, in lower case, joined by underscores. *)
Definition toSnakeCase (s : string) : string := snakeWords false false s.

End SchemaUtil.

(** ** The schema editor (the SchemaEditor and SchemaEditorForm components) *)

Module SchemaEditor.
Import Models Tree SchemaUtil.

(** [EntitySchema]; [propertiesOrder] is optional. *)
Record EntitySchema := mkSchema {
  id : string;
  name : string;
  properties : gmap string PropertyOrBuilder;
  propertiesOrder : option (list string)
}.

#[global] Instance EntitySchema_eq_dec : EqDecision EntitySchema.
Proof. solve_decision. Defined.

(** The state of [SchemaEditorForm]: the Formik state ([values],
    [initialValues], [touched]) and the [pendingMove] of the component. *)
Record FormState := mkForm {
  values : EntitySchema;
  initialValues : EntitySchema;
  touched : gmap string bool;
  pendingMove : option (TreeSourcePosition * TreeDestinationPosition)
}.

(** Formik's [dirty]: the values differ from the initial values. *)
Definition dirty (st : FormState) : bool :=
  bool_decide (values st ≠ initialValues st).

Definition withValues (st : FormState) (v : EntitySchema) : FormState :=
  {| values := v; initialValues := initialValues st; touched := touched st;
     pendingMove := pendingMove st |}.

Definition withPendingMove (st : FormState)
    (m : option (TreeSourcePosition * TreeDestinationPosition)) : FormState :=
  {| values := values st; initialValues := initialValues st;
     touched := touched st; pendingMove := m |}.

(** [setFieldValue("id", v)], [setFieldValue("name", v)],
    [setFieldValue("properties", v)], [setFieldValue("propertiesOrder", v)]:
    Formik writes the field and leaves [touched] alone. *)
Definition setFieldValue_id (st : FormState) (v : string) : FormState :=
  withValues st {| id := v; name := name (values st);
                   properties := properties (values st);
                   propertiesOrder := propertiesOrder (values st) |}.

Definition setFieldValue_name (st : FormState) (v : string) : FormState :=
  withValues st {| id := id (values st); name := v;
                   properties := properties (values st);
                   propertiesOrder := propertiesOrder (values st) |}.

Definition setFieldValue_properties (st : FormState)
    (v : gmap string PropertyOrBuilder) : FormState :=
  withValues st {| id := id (values st); name := name (values st);
                   properties := v;
                   propertiesOrder := propertiesOrder (values st) |}.

Definition setFieldValue_propertiesOrder (st : FormState)
    (v : list string) : FormState :=
  withValues st {| id := id (values st); name := name (values st);
                   properties := properties (values st);
                   propertiesOrder := Some v |}.

(** Formik's [resetForm({ values })]: the given values become both the
    values and the initial values, and [touched] is emptied. *)
Definition resetForm (st : FormState) (v : EntitySchema) : FormState :=
  {| values := v; initialValues := v; touched := ∅;
     pendingMove := pendingMove st |}.

(** *** Deriving the id from the name *)

Section IdEffect.

(** [toSnakeCase] of util/strings. *)
Variable toSnakeCase : string → string.

(** [getIn(touched, "id")] *)
Definition idTouched (st : FormState) : bool :=
  default false (touched st !! "id").

(** The effect with dependencies [isNewSchema, touched, values.name]. *)
Definition idEffect (isNewSchema : bool) (st : FormState) : FormState :=
  if negb (idTouched st) && isNewSchema
     && negb (bool_decide (name (values st) = ""))
  then setFieldValue_id st (toSnakeCase (name (values st)))
  else st.

(** [handleChange] on the name input, followed by the effects of the
    next render: the effect above runs when [values.name] has changed. *)
Definition changeName (isNewSchema : bool) (st : FormState)
    (newName : string) : FormState :=
  let st' := setFieldValue_name st newName in
  if bool_decide (name (values st) = newName) then st'
  else idEffect isNewSchema st'.

(** [handleChange] on the id input, which is disabled unless the schema
    is new: Formik writes the field.  The input has no [onBlur], so
    [touched] is left as it is; no dependency of the effect above changes,
    and it does not run. *)
Definition changeId (isNewSchema : bool) (st : FormState)
    (newId : string) : FormState :=
  if isNewSchema then setFieldValue_id st newId else st.

(** A run of changes to the name. *)
Definition changeNames (isNewSchema : bool) (st : FormState)
    (names : list string) : FormState :=
  foldl (changeName isNewSchema) st names.

End IdEffect.

(** *** Moving properties on the tree *)

(** The order the tree is built in: [propertiesOrder], or the key order
    of the mapping when there is none. *)
Definition orderOf (v : EntitySchema) : list string :=
  default (map_to_list (properties v)).*1 (propertiesOrder v).

(** The [tree] memo. *)
Definition tree (v : EntitySchema) : TreeData :=
  propertiesToTree (properties v) (orderOf v).

(** [isValidDrag].  Reading a field of [undefined] raises a TypeError:
    the result is [None] when the source parent, the dragged item or the
    destination parent is not in the tree. *)
Definition isValidDrag (tree : TreeData) (source : TreeSourcePosition)
    (destination : TreeDestinationPosition) : option bool :=
  sourceParent ← items tree !! src_parentId source;
  draggedPropertyId ← children sourceParent !! src_index source;
  draggedItem ← items tree !! draggedPropertyId;
  let draggedProperty := property (data draggedItem) in
  if isFunction draggedProperty then Some false
  else if bool_decide (dst_index destination = None) then Some false
  else if bool_decide (dst_parentId destination = rootId tree) then Some true
  else
    destinationParent ← items tree !! dst_parentId destination;
    let destinationPropertyId := Tree.id destinationParent in
    destinationItem ← items tree !! destinationPropertyId;
    let destinationProperty := property (data destinationItem) in
    Some (isMapProperty destinationProperty).

(** [doPropertyMove]: a handler that raises leaves the state as it is. *)
Definition doPropertyMove (st : FormState) (source : TreeSourcePosition)
    (destination : TreeDestinationPosition) : FormState :=
  match moveItemOnTree (tree (values st)) source destination
        ≫= treeToProperties with
  | Some (props, order) =>
      setFieldValue_properties (setFieldValue_propertiesOrder st order) props
  | None => st
  end.

(** [onDragEnd]: nothing is set before [isValidDrag] returns, so the
    state is also unchanged when it raises. *)
Definition onDragEnd (st : FormState) (source : TreeSourcePosition)
    (destination : option TreeDestinationPosition) : FormState :=
  match destination with
  | None => st
  | Some destination =>
      match isValidDrag (tree (values st)) source destination with
      | Some true =>
          if bool_decide (src_parentId source ≠ dst_parentId destination)
          then withPendingMove st (Some (source, destination))
          else doPropertyMove st source destination
      | _ => st
      end
  end.

(** The confirmation dialog of a pending move. *)
Record Dialog := mkDialog {
  open : bool;
  dialogTitle : string;
  content : list string;
  actions : list string
}.

Definition PendingMoveDialog (isOpen : bool) : Dialog :=
  {| open := isOpen;
     dialogTitle := "Are you sure?";
     content := ["You are moving one property from one context to another.";
                 "This will not transfer the data, only modify the schema."];
     actions := ["Cancel"; "Proceed"] |}.

(** [<PendingMoveDialog open={Boolean(pendingMove)} .../>] *)
Definition pendingMoveDialog (st : FormState) : Dialog :=
  PendingMoveDialog (bool_decide (is_Some (pendingMove st))).

(** [onAccept] and [onCancel] of the dialog. *)
Definition onAccept (st : FormState) : FormState :=
  match pendingMove st with
  | Some (source, destination) =>
      doPropertyMove (withPendingMove st None) source destination
  | None => withPendingMove st None
  end.

Definition onCancel (st : FormState) : FormState :=
  withPendingMove st None.

(** The events of the dialog while a move is pending. *)
Inductive DialogEvent := Accept | Cancel.

Definition dialogStep (st : FormState) (ev : DialogEvent) : FormState :=
  match ev with
  | Accept => onAccept st
  | Cancel => onCancel st
  end.

(** *** Saving *)

(** How the promise of [configurationPersistence.saveSchema] settles. *)
Inductive SaveOutcome := SaveFulfilled | SaveRejected.

Inductive EditorCall :=
| PersistSchema (schema : EntitySchema)
| SetErrorUndefined
| SnackbarOpen (type : string) (title : option string) (message : string)
| HandleClose (updatedSchema : option EntitySchema)
| ConsoleError.

Section Save.

(** [prepareSchemaForPersistence] of util/schemas. *)
Variable prepareSchemaForPersistence : EntitySchema → EntitySchema.

(** Whether the optional [handleClose] prop was supplied. *)
Variable handleClose : bool.

(** [saveSchema]: the boolean the returned promise resolves with, and
    the calls made. *)
Definition saveSchema (schema : EntitySchema) (outcome : SaveOutcome)
    : bool * list EditorCall :=
  let newSchema := prepareSchemaForPersistence schema in
  match outcome with
  | SaveFulfilled =>
      (true,
       [PersistSchema newSchema; SetErrorUndefined;
        SnackbarOpen "success" None "Schema updated"]
       ++ (if handleClose then [HandleClose (Some schema)] else []))
  | SaveRejected =>
      (false,
       [PersistSchema newSchema; ConsoleError;
        SnackbarOpen "error" (Some "Error persisting schema")
          "Details in the console"])
  end.

(** The [onSubmit] of the form:
    [saveSchema(newSchema).then(() => formikHelpers.resetForm({ values: newSchema }))]. *)
Definition onSubmit (st : FormState) (outcome : SaveOutcome)
    : FormState * list EditorCall :=
  let newSchema := values st in
  let (_, calls) := saveSchema newSchema outcome in
  (resetForm st newSchema, calls).

End Save.

End SchemaEditor.

(** ** Sample data *)

Module Examples.

Section Entities.
Import ReferenceDialog.

Definition entityE1 : Entity := {| id := "e1"; path := "products"; values := ∅ |}.
Definition entityE2 : Entity := {| id := "e2"; path := "products"; values := ∅ |}.
Definition entityE3 : Entity := {| id := "e3"; path := "products"; values := ∅ |}.

Definition singleSelectProps : ReferenceDialogProps :=
  {| multiselect := false; collection := true; selectedEntityIds := None;
     onSingleEntitySelected := true; onMultipleEntitiesSelected := true;
     onClose := true |}.

Definition multiSelectProps : ReferenceDialogProps :=
  {| multiselect := true; collection := true;
     selectedEntityIds := Some ["e1"; "e2"];
     onSingleEntitySelected := false; onMultipleEntitiesSelected := true;
     onClose := true |}.

(** Single-select mode with only the multiple-selection callback
    supplied. *)
Definition singleSelectNoCallbackProps : ReferenceDialogProps :=
  {| multiselect := false; collection := true; selectedEntityIds := None;
     onSingleEntitySelected := false; onMultipleEntitiesSelected := true;
     onClose := false |}.

End Entities.

Section Schemas.
Import Models Tree SchemaUtil SchemaEditor.

(** The form of a new schema, as it is first rendered. *)
Definition newSchemaForm : FormState :=
  {| values := {| id := ""; name := ""; properties := ∅; propertiesOrder := None |};
     initialValues := {| id := ""; name := ""; properties := ∅;
                         propertiesOrder := None |};
     touched := ∅;
     pendingMove := None |}.

(** A schema with a nested map, and its form. *)
Definition productProperties : gmap string PropertyOrBuilder :=
  <["title" := Property "Title" "string" []]>
  (<["address" := Property "Address" "map"
       [("street", Property "Street" "string" []);
        ("geo", Property "Geo" "map"
           [("lat", Property "Lat" "number" []); ("lng", Builder 1)])]]>
  (<["price" := Builder 0]> ∅)).

Definition productOrder : list string := ["address"; "title"; "price"].

Definition productForm : FormState :=
  {| values := {| id := "product"; name := "Product";
                  properties := productProperties;
                  propertiesOrder := Some productOrder |};
     initialValues := {| id := "product"; name := "Product";
                         properties := productProperties;
                         propertiesOrder := Some productOrder |};
     touched := ∅;
     pendingMove := None |}.

(** A schema in which the top-level key [a.b] is also the dotted path
    of the property [b] nested in the map [a]. *)
Definition dottedProperties : gmap string PropertyOrBuilder :=
  <["a" := Property "A" "map" [("b", Property "B" "string" [])]]>
  (<["a.b" := Property "AB" "number" []]> ∅).

Definition dottedOrder : list string := ["a"; "a.b"].

(** Dragging [title] from the root into the map [address], dragging it
    onto the string property [address.street], and dragging the builder
    [price]. *)
Definition titleAtRoot : TreeSourcePosition :=
  {| src_parentId := RootId; src_index := 1 |}.
Definition priceAtRoot : TreeSourcePosition :=
  {| src_parentId := RootId; src_index := 2 |}.
Definition intoAddress : TreeDestinationPosition :=
  {| dst_parentId := PathId "address"; dst_index := Some 0 |}.
Definition intoStreet : TreeDestinationPosition :=
  {| dst_parentId := PathId "address.street"; dst_index := Some 0 |}.
Definition toRootTop : TreeDestinationPosition :=
  {| dst_parentId := RootId; dst_index := Some 0 |}.

End Schemas.

End Examples.

(** * Properties of the reference dialog *)

Section ReferenceDialogProperties.
Import ReferenceDialog Examples.

Lemma isSelectedIn_true sel entity :
  isSelectedIn sel entity = true ↔ id entity ∈ map id sel.
Proof. unfold isSelectedIn. by rewrite bool_decide_eq_true. Qed.

Lemma isSelectedIn_false sel entity :
  isSelectedIn sel entity = false ↔ id entity ∉ map id sel.
Proof. unfold isSelectedIn. by rewrite bool_decide_eq_false. Qed.

Lemma tableRendered_ready props st :
  tableRendered props st = true → ∃ sel, selectedEntities st = Some sel.
Proof.
  unfold tableRendered. rewrite andb_true_iff, bool_decide_eq_true.
  intros [_ [sel Hsel]]. by exists sel.
Qed.

(** C6, amended: in single-select mode, when the single-selection
    callback is supplied, a click on an entity calls it with exactly that
    entity, then closes the dialog; nothing else is called (so the
    multiple-selection callback is not), and the state is left alone. *)
Theorem onEntityClick_single_select props st entity :
  multiselect props = false →
  onSingleEntitySelected props = true →
  onEntityClick props st entity
  = (st, [SingleEntitySelected (Some entity); SideDialogClose]).
Proof. intros Hm Hs. unfold onEntityClick. by rewrite Hm, Hs. Qed.

Lemma onEntityClick_single_select_witness :
  multiselect singleSelectProps = false ∧
  onSingleEntitySelected singleSelectProps = true ∧
  onEntityClick singleSelectProps {| selectedEntities := Some [] |} entityE1
  = ({| selectedEntities := Some [] |},
     [SingleEntitySelected (Some entityE1); SideDialogClose]).
Proof.
  split; [reflexivity |]. split; [reflexivity |].
  apply (onEntityClick_single_select singleSelectProps); reflexivity.
Defined.

(** C6 as stated fails: in single-select mode without a single-selection
    callback, a click falls through to the toggle, which calls the
    multiple-selection callback and does not close the dialog. *)
Lemma onEntityClick_single_select_counterexample :
  ¬ (multiselect singleSelectNoCallbackProps = false →
     let calls :=
       (onEntityClick singleSelectNoCallbackProps
          {| selectedEntities := Some [] |} entityE1).2 in
     SingleEntitySelected (Some entityE1) ∈ calls ∧
     SideDialogClose ∈ calls ∧
     ∀ entities, MultipleEntitiesSelected entities ∉ calls).
Proof.
  intros H. destruct (H eq_refl) as (_ & _ & Hnever).
  apply (Hnever [entityE1]). vm_compute. left.
Qed.

(** C7: in multi-select mode a row click toggles the membership of the
    clicked entity, by id: when an entity of that id is selected, the
    entities of that id are removed and the others keep their relative
    order; otherwise the clicked entity is appended at the end.  The
    updated selection becomes the state and is what the
    multiple-selection callback is called with, on every click.  With
    [E1; E2] selected (of different ids), clicking E2 reports exactly
    [E1]. *)
Theorem onEntityClick_multi_select_toggles props st sel entity :
  multiselect props = true →
  selectedEntities st = Some sel →
  ∃ newValue,
    onEntityClick props st entity
    = ({| selectedEntities := Some newValue |},
       if onMultipleEntitiesSelected props
       then [MultipleEntitiesSelected newValue] else []) ∧
    (id entity ∈ map id newValue ↔ id entity ∉ map id sel) ∧
    (id entity ∈ map id sel →
       sublist newValue sel ∧
       ∀ e, e ∈ newValue ↔ e ∈ sel ∧ id e ≠ id entity) ∧
    (id entity ∉ map id sel → newValue = sel ++ [entity]) ∧
    (∀ e1, sel = [e1; entity] → id e1 ≠ id entity → newValue = [e1]).
Proof.
  intros Hm Hsel. unfold onEntityClick, toggleEntitySelection.
  rewrite Hm, Hsel. simpl.
  destruct (isSelectedIn sel entity) eqn:Hin.
  - apply isSelectedIn_true in Hin.
    exists (filter (λ item, id item ≠ id entity) sel).
    split; [done |]. split; [| split; [| split]].
    + split; [| done]. intros Hmem.
      apply list_elem_of_fmap in Hmem as (e & He & Hmem').
      apply list_elem_of_filter in Hmem' as [Hne _]. congruence.
    + intros _. split; [apply sublist_filter |].
      intros e. rewrite list_elem_of_filter. tauto.
    + done.
    + intros e1 -> Hne. rewrite filter_cons_True by done.
      rewrite filter_cons_False by (intros H; by apply H). done.
  - apply isSelectedIn_false in Hin.
    exists (sel ++ [entity]).
    split; [done |]. split; [| split; [| split]].
    + split; [done |]. intros _. rewrite map_app. set_solver.
    + done.
    + done.
    + intros e1 -> _. exfalso. apply Hin. set_solver.
Qed.

Lemma onEntityClick_multi_select_toggles_witness :
  multiselect multiSelectProps = true ∧
  selectedEntities {| selectedEntities := Some [entityE1; entityE2] |}
  = Some [entityE1; entityE2] ∧
  ∃ newValue,
    onEntityClick multiSelectProps
      {| selectedEntities := Some [entityE1; entityE2] |} entityE2
    = ({| selectedEntities := Some newValue |},
       [MultipleEntitiesSelected newValue]) ∧
    newValue = [entityE1].
Proof.
  split; [reflexivity |]. split; [reflexivity |].
  destruct (onEntityClick_multi_select_toggles multiSelectProps
              {| selectedEntities := Some [entityE1; entityE2] |}
              [entityE1; entityE2] entityE2 eq_refl eq_refl)
    as (newValue & Hclick & _ & _ & _ & Hpair).
  exists newValue. split; [exact Hclick |].
  apply (Hpair entityE1); [reflexivity | discriminate].
Defined.

(** C10: in multi-select mode, Clear calls the multiple-selection
    callback with the empty list and leaves the state of the dialog as it
    was: the selected entities are unchanged, so the selection marks and
    every later toggle still work on the selection from before Clear. *)
Theorem onClear_keeps_selection props st :
  multiselect props = true →
  onClear props st
  = (st, if onMultipleEntitiesSelected props
         then [MultipleEntitiesSelected []] else []) ∧
  selectedEntities (onClear props st).1 = selectedEntities st ∧
  (∀ entity, isSelected (onClear props st).1 entity = isSelected st entity) ∧
  (∀ entity, toggleEntitySelection props (onClear props st).1 entity
             = toggleEntitySelection props st entity).
Proof.
  intros Hm. unfold onClear. rewrite Hm. simpl.
  destruct (onMultipleEntitiesSelected props); done.
Qed.

Lemma onClear_keeps_selection_witness :
  multiselect multiSelectProps = true ∧
  onClear multiSelectProps {| selectedEntities := Some [entityE1; entityE2] |}
  = ({| selectedEntities := Some [entityE1; entityE2] |},
     [MultipleEntitiesSelected []]) ∧
  (toggleEntitySelection multiSelectProps
     (onClear multiSelectProps
        {| selectedEntities := Some [entityE1; entityE2] |}).1 entityE2).2
  = [MultipleEntitiesSelected [entityE1]].
Proof.
  split; [reflexivity |].
  destruct (onClear_keeps_selection multiSelectProps
              {| selectedEntities := Some [entityE1; entityE2] |} eq_refl)
    as (Hclear & _ & _ & Htoggle).
  split; [exact Hclear |].
  rewrite Htoggle. vm_compute. reflexivity.
Defined.

End ReferenceDialogProperties.

(** * The initial selection of the reference dialog *)

Section InitialSelection.
Import ReferenceDialog Examples.

Lemma allFulfilled_pending ss i :
  ss !! i = Some None → allFulfilled ss = None.
Proof.
  revert i. induction ss as [| s ss IH]; intros [| i] H; simpl in *; try done.
  - by injection H as ->.
  - destruct s as [[e |] |]; try done. by rewrite (IH i H).
Qed.

Lemma allFulfilled_length ss es :
  allFulfilled ss = Some es → length es = length ss.
Proof.
  revert es. induction ss as [| s ss IH]; intros es H; simpl in *.
  - by injection H as <-.
  - destruct s as [[e |] |]; try done.
    destruct (allFulfilled ss) as [es' |]; simpl in H; [| done].
    injection H as <-. simpl. f_equal. by apply IH.
Qed.

(** Filtering out [undefined] keeps exactly the entities that were found. *)
Lemma definedEntities_spec es e :
  e ∈ definedEntities es ↔ Some e ∈ es.
Proof.
  unfold definedEntities. rewrite list_elem_of_omap. split.
  - intros (x & Hx & ->). done.
  - intros H. by exists (Some e).
Qed.

(** What holds of the effect in every state it reaches. *)
Record effectInvariant (n : nat) (s : EffectState) : Prop := {
  inv_length : length (slots s) = n;
  inv_delivered : delivered s = true ↔ is_Some (allFulfilled (slots s));
  inv_hidden : delivered s = false → selectedEntities (dialog s) = None;
  inv_visible : ∀ sel, selectedEntities (dialog s) = Some sel →
    ∃ es, allFulfilled (slots s) = Some es ∧ sel = definedEntities es;
  inv_mounted : unmounted s = false → ∀ es,
    allFulfilled (slots s) = Some es →
    selectedEntities (dialog s) = Some (definedEntities es)
}.

Lemma deliver_invariant n ss u :
  length ss = n →
  effectInvariant n
    (deliver {| slots := ss; delivered := false; unmounted := u;
                dialog := initialState |}).
Proof.
  intros Hlen. unfold deliver. simpl.
  destruct (allFulfilled ss) as [es |] eqn:Hall.
  - constructor; simpl.
    + done.
    + rewrite Hall. split; [by eexists | done].
    + done.
    + destruct u; simpl; [done |]. intros sel [= <-]. by exists es.
    + intros -> es' Hes'. rewrite Hall in Hes'. by injection Hes' as <-.
  - constructor; simpl.
    + done.
    + rewrite Hall. split; [done | by intros [? ?]].
    + done.
    + done.
    + rewrite Hall. done.
Qed.

Lemma startEffect_invariant props ids :
  selectedEntityIds props = Some ids → collection props = true →
  effectInvariant (length ids) (startEffect props initialState).
Proof.
  intros Hids Hc. unfold startEffect. rewrite Hids, Hc.
  apply deliver_invariant. by rewrite length_map.
Qed.

Lemma effectStep_invariant n s ev :
  effectInvariant n s → effectInvariant n (effectStep s ev).
Proof.
  intros Hinv. destruct ev as [i o |]; simpl.
  - destruct (slots s !! i) as [[o' |] |] eqn:Hslot; try done.
    assert (Hnone : allFulfilled (slots s) = None)
      by (by apply allFulfilled_pending with i).
    assert (Hd : delivered s = false).
    { destruct (delivered s) eqn:Hd; [| done].
      apply (inv_delivered _ _ Hinv) in Hd. rewrite Hnone in Hd.
      by destruct Hd. }
    assert (Hsel : dialog s = initialState).
    { pose proof (inv_hidden _ _ Hinv Hd) as H.
      destruct (dialog s) as [sel]. simpl in H. by rewrite H. }
    rewrite Hd, Hsel. apply deliver_invariant.
    rewrite length_insert. apply (inv_length _ _ Hinv).
  - destruct Hinv as [H1 H2 H3 H4 H5]. constructor; simpl; try done.
Qed.

Lemma effectRun_invariant n s evs :
  effectInvariant n s → effectInvariant n (effectRun s evs).
Proof.
  unfold effectRun. revert s.
  induction evs as [| ev evs IH]; intros s Hinv; simpl; [done |].
  apply IH. by apply effectStep_invariant.
Qed.

Lemma effectRun_mounted s evs :
  Unmount ∉ evs → unmounted (effectRun s evs) = unmounted s.
Proof.
  unfold effectRun. revert s.
  induction evs as [| ev evs IH]; intros s Hnot; simpl; [done |].
  rewrite IH by set_solver.
  destruct ev as [i o |]; simpl; [| set_solver].
  destruct (slots s !! i) as [[o' |] |]; try done.
  unfold deliver. simpl. destruct (delivered s); [done |].
  by destruct (allFulfilled _).
Qed.

Lemma startEffect_mounted props st : unmounted (startEffect props st) = false.
Proof.
  unfold startEffect, deliver.
  destruct (selectedEntityIds props) as [ids |]; [| done].
  destruct (collection props); [| done]. simpl.
  by destruct (allFulfilled _).
Qed.

Lemma startEffect_slots props ids st :
  selectedEntityIds props = Some ids → collection props = true →
  slots (startEffect props st) = map (λ _, None) ids.
Proof.
  intros Hids Hc. unfold startEffect, deliver. rewrite Hids, Hc. simpl.
  by destruct (allFulfilled _).
Qed.



End InitialSelection.

(** * Properties of the collection table *)

Section CollectionTableProperties.
Import EntityCollectionTable Examples.



End CollectionTableProperties.

(** * Properties of the schema editor form *)

Section SchemaEditorProperties.
Import Models Tree SchemaUtil SchemaEditor Examples.

Lemma changeName_touched slug isNewSchema st newName :
  touched (changeName slug isNewSchema st newName) = touched st.
Proof.
  unfold changeName, idEffect. case_bool_decide; [done |].
  by destruct (_ && _).
Qed.

Lemma changeName_idTouched slug isNewSchema st newName :
  idTouched (changeName slug isNewSchema st newName) = idTouched st.
Proof. unfold idTouched. by rewrite changeName_touched. Qed.

Lemma changeName_name slug isNewSchema st newName :
  name (values (changeName slug isNewSchema st newName)) = newName.
Proof.
  unfold changeName, idEffect. case_bool_decide; [done |].
  by destruct (_ && _).
Qed.

(** Once the id is touched, a change of the name leaves it alone. *)
Lemma changeName_touched_id slug isNewSchema st newName :
  idTouched st = true →
  id (values (changeName slug isNewSchema st newName)) = id (values st).
Proof.
  intros Ht. unfold changeName, idEffect. case_bool_decide; [done |].
  replace (idTouched (setFieldValue_name st newName)) with (idTouched st)
    by done.
  by rewrite Ht.
Qed.

(** C4, amended: for a new schema whose id is not touched, every change
    of the name to a non-empty name sets the id to [toSnakeCase] of that
    name, and leaves the id untouched, so that this holds again at the
    next change. *)
Theorem id_derived_from_name (slug : string → string) (st : FormState) :
  idTouched st = false →
  ∀ newName, newName ≠ "" → newName ≠ name (values st) →
    let st' := changeName slug true st newName in
    id (values st') = slug newName ∧ name (values st') = newName ∧
    idTouched st' = false.
Proof.
  intros Ht newName Hne Hchg st'. subst st'.
  split; [| split].
  - unfold changeName. rewrite bool_decide_eq_false_2 by done.
    unfold idEffect.
    replace (idTouched (setFieldValue_name st newName)) with (idTouched st)
      by done.
    rewrite Ht. simpl. by rewrite bool_decide_eq_false_2.
  - apply changeName_name.
  - by rewrite changeName_idTouched.
Qed.

Lemma id_derived_from_name_witness :
  idTouched newSchemaForm = false ∧
  (let st := changeName toSnakeCase true newSchemaForm "Product" in
   id (values st) = "product" ∧ name (values st) = "Product" ∧
   id (values (changeName toSnakeCase true st "Product line")) = "product_line").
Proof.
  split; [reflexivity |].
  destruct (id_derived_from_name toSnakeCase newSchemaForm eq_refl "Product")
    as (Hid & Hname & Htouched); [discriminate | discriminate |].
  split; [exact Hid |]. split; [exact Hname |].
  destruct (id_derived_from_name toSnakeCase
              (changeName toSnakeCase true newSchemaForm "Product")
              Htouched "Product line")
    as (Hid' & _ & _); [discriminate | vm_compute; discriminate |].
  exact Hid'.
Defined.

(** C4 as stated fails: when the name is changed to the empty name, the
    effect is skipped and the id keeps the value derived from the name
    before. *)
Lemma id_derived_from_name_counterexample :
  ¬ (let st := changeName toSnakeCase true newSchemaForm "Product" in
     idTouched st = false →
     id (values (changeName toSnakeCase true st "")) = toSnakeCase "").
Proof.
  intros H. specialize (H eq_refl). vm_compute in H. discriminate.
Qed.

(** Typing into the id input never sets the touched flag of the id, in
    no run of changes to the two inputs. *)
Lemma changeId_touched isNewSchema st newId :
  touched (changeId isNewSchema st newId) = touched st.
Proof. unfold changeId. by destruct isNewSchema. Qed.

(** The second half of C4 on the code: an id that was typed by hand is
    not protected.  The effect reads the touched flag of the id, but the
    id input sets no such flag, so the next change of the name replaces
    the typed id by the one derived from the name. *)
Lemma typed_id_overwritten_by_name_change :
  let st1 := changeName toSnakeCase true newSchemaForm "Product" in
  let st2 := changeId true st1 "goods" in
  let st3 := changeName toSnakeCase true st2 "Products" in
  id (values st1) = "product" ∧
  id (values st2) = "goods" ∧ idTouched st2 = false ∧
  id (values st3) = "products".
Proof. repeat split; vm_compute; reflexivity. Qed.

(** C9, the code at a save that fails and at one that succeeds: in both
    cases the normalized schema is handed to the persistence and the form
    is reset to the submitted values, which clears [dirty].  A success is
    notified and the caller gets the submitted schema; a failure is
    notified as an error. *)
Theorem onSubmit_resets_form
    (prepareSchemaForPersistence : EntitySchema → EntitySchema)
    (handleClose : bool) (st : FormState) :
  (let (st', calls) :=
     onSubmit prepareSchemaForPersistence handleClose st SaveRejected in
   values st' = values st ∧ dirty st' = false ∧
   calls = [PersistSchema (prepareSchemaForPersistence (values st));
            ConsoleError;
            SnackbarOpen "error" (Some "Error persisting schema")
              "Details in the console"]) ∧
  (let (st', calls) :=
     onSubmit prepareSchemaForPersistence handleClose st SaveFulfilled in
   values st' = values st ∧ dirty st' = false ∧
   calls = [PersistSchema (prepareSchemaForPersistence (values st));
            SetErrorUndefined;
            SnackbarOpen "success" None "Schema updated"]
           ++ (if handleClose then [HandleClose (Some (values st))] else [])).
Proof.
  split; simpl; (split; [done |]); (split; [| done]);
    unfold dirty; simpl; apply bool_decide_eq_false; by intros H.
Qed.

(** A draft that is dirty before a save that fails is not dirty after. *)
Lemma onSubmit_rejected_clears_dirty :
  let st := changeName toSnakeCase true newSchemaForm "Product" in
  dirty st = true ∧
  dirty (onSubmit (λ s, s) true st SaveRejected).1 = false.
Proof. split; vm_compute; reflexivity. Qed.

(** ** Dragging properties *)

Lemma doPropertyMove_pendingMove st source destination :
  pendingMove (doPropertyMove st source destination) = pendingMove st.
Proof.
  unfold doPropertyMove.
  by destruct (moveItemOnTree _ _ _ ≫= treeToProperties) as [[props order] |].
Qed.

Lemma doPropertyMove_withPendingMove st m source destination :
  doPropertyMove (withPendingMove st m) source destination
  = withPendingMove (doPropertyMove st source destination) m.
Proof.
  unfold doPropertyMove. simpl.
  by destruct (moveItemOnTree _ _ _ ≫= treeToProperties) as [[props order] |].
Qed.

(** C2: for a drag whose source addresses an item of the tree, the drag
    is rejected when the property of the dragged item is a builder,
    whatever the destination; rejected when the destination has no
    index; otherwise accepted when the destination parent is the root;
    and otherwise accepted exactly when the property of the destination
    parent is a concrete property of data type map.  A drag that is not
    accepted leaves the form, and with it the tree, as it was. *)
Theorem isValidDrag_cases (t : TreeData) (source : TreeSourcePosition)
    (destination : TreeDestinationPosition)
    (sourceParent dragged : TreeItem) (draggedId : ItemId) :
  items t !! src_parentId source = Some sourceParent →
  children sourceParent !! src_index source = Some draggedId →
  items t !! draggedId = Some dragged →
  (isFunction (property (data dragged)) = true →
     isValidDrag t source destination = Some false) ∧
  (dst_index destination = None →
     isValidDrag t source destination = Some false) ∧
  (isFunction (property (data dragged)) = false →
   is_Some (dst_index destination) →
     (dst_parentId destination = rootId t →
        isValidDrag t source destination = Some true) ∧
     (dst_parentId destination ≠ rootId t →
      ∀ parent, items t !! dst_parentId destination = Some parent →
                Tree.id parent = dst_parentId destination →
        isValidDrag t source destination
        = Some (isMapProperty (property (data parent))))) ∧
  (∀ st, t = tree (values st) →
     isValidDrag t source destination ≠ Some true →
     onDragEnd st source (Some destination) = st).
Proof.
  intros Hparent Hindex Hdragged.
  assert (Hunfold : isValidDrag t source destination =
    if isFunction (property (data dragged)) then Some false
    else if bool_decide (dst_index destination = None) then Some false
    else if bool_decide (dst_parentId destination = rootId t) then Some true
    else destinationParent ← items t !! dst_parentId destination;
         destinationItem ← items t !! Tree.id destinationParent;
         Some (isMapProperty (property (data destinationItem)))).
  { unfold isValidDrag. rewrite Hparent. simpl. rewrite Hindex. simpl.
    rewrite Hdragged. done. }
  split; [| split; [| split]].
  - intros Hb. by rewrite Hunfold, Hb.
  - intros Hnone. rewrite Hunfold.
    destruct (isFunction _); [done |]. by rewrite bool_decide_eq_true_2.
  - intros Hb [i Hi]. rewrite Hunfold, Hb.
    rewrite bool_decide_eq_false_2 by congruence. split.
    + intros Hroot. by rewrite bool_decide_eq_true_2.
    + intros Hroot parent Hp Hid. rewrite bool_decide_eq_false_2 by done.
      rewrite Hp. simpl. rewrite Hid, Hp. done.
  - intros st -> Hinvalid. simpl.
    destruct (isValidDrag _ _ _) as [[|] |]; done.
Qed.

Lemma isValidDrag_cases_witness :
  isValidDrag (tree (values productForm)) priceAtRoot toRootTop = Some false ∧
  isValidDrag (tree (values productForm)) titleAtRoot
    {| dst_parentId := RootId; dst_index := None |} = Some false ∧
  isValidDrag (tree (values productForm)) titleAtRoot toRootTop = Some true ∧
  isValidDrag (tree (values productForm)) titleAtRoot intoAddress = Some true ∧
  isValidDrag (tree (values productForm)) titleAtRoot intoStreet = Some false ∧
  onDragEnd productForm titleAtRoot (Some intoStreet) = productForm.
Proof.
  assert (Hroot : items (tree (values productForm)) !! RootId
                  = Some {| Tree.id := RootId;
                            children := map PathId productOrder;
                            data := {| property := None |} |})
    by (vm_compute; reflexivity).
  assert (Htitle : items (tree (values productForm)) !! PathId "title"
                   = Some {| Tree.id := PathId "title"; children := [];
                             data := {| property :=
                               Some (Property "Title" "string" []) |} |})
    by (vm_compute; reflexivity).
  assert (Hprice : items (tree (values productForm)) !! PathId "price"
                   = Some {| Tree.id := PathId "price"; children := [];
                             data := {| property := Some (Builder 0) |} |})
    by (vm_compute; reflexivity).
  split.
  { destruct (isValidDrag_cases _ priceAtRoot toRootTop _ _ _
                Hroot eq_refl Hprice) as (Hbuilder & _).
    apply Hbuilder. reflexivity. }
  split.
  { destruct (isValidDrag_cases _ titleAtRoot
                {| dst_parentId := RootId; dst_index := None |} _ _ _
                Hroot eq_refl Htitle) as (_ & Hnoindex & _).
    apply Hnoindex. reflexivity. }
  split.
  { destruct (isValidDrag_cases _ titleAtRoot toRootTop _ _ _
                Hroot eq_refl Htitle) as (_ & _ & Hconcrete & _).
    destruct (Hconcrete eq_refl (ex_intro _ 0 eq_refl)) as [Hatroot _].
    apply Hatroot. reflexivity. }
  split.
  { destruct (isValidDrag_cases _ titleAtRoot intoAddress _ _ _
                Hroot eq_refl Htitle) as (_ & _ & Hconcrete & _).
    destruct (Hconcrete eq_refl (ex_intro _ 0 eq_refl)) as [_ Hnested].
    apply (Hnested ltac:(discriminate)
             {| Tree.id := PathId "address";
                children := [PathId "address.street"; PathId "address.geo"];
                data := {| property :=
                  Some (Property "Address" "map"
                    [("street", Property "Street" "string" []);
                     ("geo", Property "Geo" "map"
                        [("lat", Property "Lat" "number" []);
                         ("lng", Builder 1)])]) |} |});
      [vm_compute; reflexivity | reflexivity]. }
  split.
  { destruct (isValidDrag_cases _ titleAtRoot intoStreet _ _ _
                Hroot eq_refl Htitle) as (_ & _ & Hconcrete & _).
    destruct (Hconcrete eq_refl (ex_intro _ 0 eq_refl)) as [_ Hnested].
    apply (Hnested ltac:(discriminate)
             {| Tree.id := PathId "address.street"; children := [];
                data := {| property :=
                  Some (Property "Street" "string" []) |} |});
      [vm_compute; reflexivity | reflexivity]. }
  destruct (isValidDrag_cases _ titleAtRoot intoStreet _ _ _
              Hroot eq_refl Htitle) as (_ & _ & _ & Hnoop).
  apply Hnoop; [reflexivity |].
  vm_compute. discriminate.
Defined.

(** What [doPropertyMove] writes: the mapping and the order list that
    flattening the moved tree gives, both of them, and nothing else of
    the form. *)
Lemma doPropertyMove_writes st source destination newTree props order :
  moveItemOnTree (tree (values st)) source destination = Some newTree →
  treeToProperties newTree = Some (props, order) →
  doPropertyMove st source destination
  = withValues st {| id := id (values st); name := name (values st);
                     properties := props; propertiesOrder := Some order |}.
Proof.
  intros Hmove Hflat. unfold doPropertyMove.
  rewrite Hmove. cbn [mbind option_bind]. rewrite Hflat. reflexivity.
Qed.

(** C3: a valid drag from one parent to a different parent changes
    nothing of the draft: it only records the pending move, which opens
    the confirmation dialog, whose text says that the data is not
    transferred.  Cancelling drops the pending move and leaves the draft
    as it was.  Accepting drops the pending move and applies it: the
    mapping and the order list of the draft become the ones that
    flattening the moved tree gives, and id and name stay.  A valid drag
    within one parent writes that mapping and order list at once, without
    pending move and without dialog. *)
Theorem cross_parent_move_needs_confirmation (st : FormState)
    (source : TreeSourcePosition) (destination : TreeDestinationPosition) :
  isValidDrag (tree (values st)) source destination = Some true →
  (src_parentId source ≠ dst_parentId destination →
     let st' := onDragEnd st source (Some destination) in
     values st' = values st ∧
     pendingMove st' = Some (source, destination) ∧
     open (pendingMoveDialog st') = true ∧
     (∃ text before after,
        text ∈ content (pendingMoveDialog st') ∧
        text = before +:+ "not transfer the data" +:+ after) ∧
     values (dialogStep st' Cancel) = values st ∧
     pendingMove (dialogStep st' Cancel) = None ∧
     pendingMove (dialogStep st' Accept) = None ∧
     (∀ newTree props order,
        moveItemOnTree (tree (values st)) source destination = Some newTree →
        treeToProperties newTree = Some (props, order) →
        dialogStep st' Accept
        = withPendingMove
            (withValues st {| id := id (values st); name := name (values st);
                              properties := props;
                              propertiesOrder := Some order |}) None)) ∧
  (src_parentId source = dst_parentId destination →
     let st' := onDragEnd st source (Some destination) in
     pendingMove st' = pendingMove st ∧
     open (pendingMoveDialog st') = open (pendingMoveDialog st) ∧
     (∀ newTree props order,
        moveItemOnTree (tree (values st)) source destination = Some newTree →
        treeToProperties newTree = Some (props, order) →
        st' = withValues st {| id := id (values st); name := name (values st);
                               properties := props;
                               propertiesOrder := Some order |})).
Proof.
  intros Hvalid. split.
  - intros Hcross st'.
    assert (Hst' : st' = withPendingMove st (Some (source, destination))).
    { subst st'. simpl. rewrite Hvalid. by rewrite bool_decide_eq_true_2. }
    rewrite Hst'.
    split; [done |]. split; [done |]. split; [done |]. split.
    { exists "This will not transfer the data, only modify the schema.",
        "This will ", ", only modify the schema.".
      split; [| reflexivity]. simpl. set_solver. }
    split; [done |]. split; [done |]. split.
    + simpl. unfold onAccept. simpl.
      by rewrite !doPropertyMove_withPendingMove.
    + intros newTree props order Hmove Hflat.
      simpl. unfold onAccept. simpl.
      rewrite !doPropertyMove_withPendingMove.
      by rewrite (doPropertyMove_writes st _ _ newTree props order).
  - intros Hsame st'.
    assert (Hst' : st' = doPropertyMove st source destination).
    { subst st'. simpl. rewrite Hvalid.
      by rewrite bool_decide_eq_false_2 by (intros H; by apply H). }
    rewrite Hst'. split; [apply doPropertyMove_pendingMove |]. split.
    + unfold pendingMoveDialog. by rewrite doPropertyMove_pendingMove.
    + intros newTree props order Hmove Hflat.
      by rewrite (doPropertyMove_writes st _ _ newTree props order).
Qed.

Lemma cross_parent_move_needs_confirmation_witness :
  isValidDrag (tree (values productForm)) titleAtRoot intoAddress = Some true ∧
  src_parentId titleAtRoot ≠ dst_parentId intoAddress ∧
  (let st' := onDragEnd productForm titleAtRoot (Some intoAddress) in
   values st' = values productForm ∧
   values (dialogStep st' Cancel) = values productForm ∧
   values (dialogStep st' Accept)
   = {| id := "product"; name := "Product";
        properties :=
          <["address" := Property "Address" "map"
              [("title", Property "Title" "string" []);
               ("street", Property "Street" "string" []);
               ("geo", Property "Geo" "map"
                  [("lat", Property "Lat" "number" []); ("lng", Builder 1)])]]>
          (<["price" := Builder 0]> ∅);
        propertiesOrder := Some ["address"; "price"] |}) ∧
  isValidDrag (tree (values productForm)) titleAtRoot toRootTop = Some true ∧
  src_parentId titleAtRoot = dst_parentId toRootTop ∧
  values (onDragEnd productForm titleAtRoot (Some toRootTop))
  = {| id := "product"; name := "Product";
       properties := productProperties;
       propertiesOrder := Some ["title"; "address"; "price"] |}.
Proof.
  assert (Hinto : isValidDrag (tree (values productForm)) titleAtRoot intoAddress
                  = Some true) by (vm_compute; reflexivity).
  assert (Htop : isValidDrag (tree (values productForm)) titleAtRoot toRootTop
                 = Some true) by (vm_compute; reflexivity).
  split; [exact Hinto |]. split; [discriminate |]. split.
  - destruct (cross_parent_move_needs_confirmation productForm titleAtRoot
                intoAddress Hinto) as [Hcross _].
    destruct (Hcross ltac:(discriminate))
      as (Hkeep & _ & _ & _ & Hcancel & _ & _ & Haccept).
    split; [exact Hkeep |]. split; [exact Hcancel |].
    assert (Hflat :
      moveItemOnTree (tree (values productForm)) titleAtRoot intoAddress
        ≫= treeToProperties
      = Some (<["address" := Property "Address" "map"
                  [("title", Property "Title" "string" []);
                   ("street", Property "Street" "string" []);
                   ("geo", Property "Geo" "map"
                      [("lat", Property "Lat" "number" []);
                       ("lng", Builder 1)])]]>
              (<["price" := Builder 0]> ∅), ["address"; "price"]))
      by (vm_compute; reflexivity).
    destruct (moveItemOnTree (tree (values productForm)) titleAtRoot intoAddress)
      as [newTree |] eqn:Hmove; [| discriminate].
    by rewrite (Haccept newTree _ _ eq_refl Hflat).
  - split; [exact Htop |]. split; [reflexivity |].
    destruct (cross_parent_move_needs_confirmation productForm titleAtRoot
                toRootTop Htop) as [_ Hsame].
    destruct (Hsame eq_refl) as (_ & _ & Hmove).
    assert (Hflat :
      moveItemOnTree (tree (values productForm)) titleAtRoot toRootTop
        ≫= treeToProperties
      = Some (productProperties, ["title"; "address"; "price"]))
      by (vm_compute; reflexivity).
    destruct (moveItemOnTree (tree (values productForm)) titleAtRoot toRootTop)
      as [newTree |] eqn:Htree; [| discriminate].
    by rewrite (Hmove newTree _ _ eq_refl Hflat).
Defined.

End SchemaEditorProperties.

(** * The round trip between properties and tree *)

Section PropertyTreeProperties.
Import Models Tree SchemaUtil Examples.

(** ** Dotted paths *)

Lemma app_empty t : "" +:+ t = t.
Proof. reflexivity. Qed.

Lemma app_String c s t : String c s +:+ t = String c (s +:+ t).
Proof. reflexivity. Qed.

Lemma app_empty_r s : s +:+ "" = s.
Proof. induction s as [| c s IH]; [done |]. by rewrite app_String, IH. Qed.

Lemma string_app_assoc s t u : (s +:+ t) +:+ u = s +:+ (t +:+ u).
Proof. induction s as [| c s IH]; [done |]. by rewrite !app_String, IH. Qed.

Lemma string_length_app s t :
  String.length (s +:+ t) = String.length s + String.length t.
Proof.
  induction s as [| c s IH]; [done |]. rewrite app_String. simpl. by rewrite IH.
Qed.

Lemma dotFree_dotted_tail p k : dotFree (p +:+ String "." k) = false.
Proof.
  induction p as [| c p IH]; [done |].
  rewrite app_String. simpl. by rewrite IH, andb_false_r.
Qed.

Lemma lastSegment_dotFree k : dotFree k = true → lastSegment k = k.
Proof.
  destruct k as [| c k]; simpl; [done |].
  rewrite andb_true_iff, negb_true_iff. intros [Hc Hk]. by rewrite Hk, Hc.
Qed.

Lemma lastSegment_dotted p k :
  dotFree k = true → lastSegment (dotted p k) = k.
Proof.
  intros Hk. unfold dotted. rewrite app_String, app_empty.
  induction p as [| c p IH].
  - rewrite app_empty. simpl. by rewrite Hk.
  - rewrite app_String. simpl. by rewrite dotFree_dotted_tail.
Qed.

(** What may follow a segment within a path: nothing, or a dot and more. *)
Definition segmentEnd (t : string) : Prop :=
  t = "" ∨ ∃ r, t = String "." r.

(** The first segment of a path is determined by the path. *)
Lemma first_segment_inj k1 k2 t1 t2 :
  dotFree k1 = true → dotFree k2 = true → segmentEnd t1 → segmentEnd t2 →
  k1 +:+ t1 = k2 +:+ t2 → k1 = k2.
Proof.
  revert k2. induction k1 as [| c1 k1 IH]; intros [| c2 k2];
    rewrite ?app_empty, ?app_String; simpl.
  - done.
  - rewrite andb_true_iff, negb_true_iff. intros _ [Hc _] [-> | [r ->]] _ H.
    + discriminate.
    + injection H as <- _. done.
  - rewrite andb_true_iff, negb_true_iff. intros [Hc _] _ _ [-> | [r ->]] H.
    + discriminate.
    + injection H as -> _. done.
  - rewrite !andb_true_iff. intros [_ H1] [_ H2] Ht1 Ht2 H.
    injection H as -> H. f_equal. by apply IH.
Qed.

(** A path at or below [p]. *)
Definition below (p path : string) : Prop :=
  ∃ t, segmentEnd t ∧ path = p +:+ t.

Lemma below_refl p : below p p.
Proof. exists "". split; [by left |]. by rewrite app_empty_r. Qed.

Lemma below_dotted p k path : below (dotted p k) path → below p path.
Proof.
  intros (t & _ & ->). exists ("." +:+ k +:+ t). split.
  - right. by eexists.
  - unfold dotted. by rewrite !string_app_assoc.
Qed.

Lemma below_dotted_strict p k : ¬ below (dotted p k) p.
Proof.
  intros (t & _ & H). unfold dotted in H.
  apply (f_equal String.length) in H.
  rewrite !string_length_app in H. simpl in H. lia.
Qed.

Lemma below_distinct_keys p k1 k2 path :
  dotFree k1 = true → dotFree k2 = true →
  below (dotted p k1) path → below (dotted p k2) path → k1 = k2.
Proof.
  intros H1 H2 (t1 & Ht1 & ->) (t2 & Ht2 & H). unfold dotted in H.
  rewrite !string_app_assoc in H. apply String.app_inj in H.
  rewrite !app_String, !app_empty in H. injection H as H.
  by apply (first_segment_inj k1 k2 t1 t2).
Qed.

Lemma below_distinct_top k1 k2 path :
  dotFree k1 = true → dotFree k2 = true →
  below k1 path → below k2 path → k1 = k2.
Proof.
  intros H1 H2 (t1 & Ht1 & ->) (t2 & Ht2 & H).
  by apply (first_segment_inj k1 k2 t1 t2).
Qed.

(** ** The items of a property *)

Lemma elem_of_flat_map {A B} (f : A → list B) (l : list A) (y : B) :
  y ∈ flat_map f l ↔ ∃ x, x ∈ l ∧ y ∈ f x.
Proof.
  rewrite list_elem_of_In, in_flat_map. split; intros (x & Hx & Hy);
    exists x; by rewrite ?list_elem_of_In in *.
Qed.

Lemma wfProperty_map t ps :
  wfProperty (Property t "map" ps) = true →
  NoDup ps.*1 ∧
  Forall (λ kc, dotFree kc.1 = true ∧ wfProperty kc.2 = true) ps.
Proof.
  simpl. rewrite andb_true_iff, bool_decide_eq_true, forallb_forall.
  intros [Hnodup Hall]. split; [done |]. apply Forall_forall.
  intros kc Hkc. apply andb_true_iff, Hall. by apply list_elem_of_In.
Qed.

(** The item of the property itself, which comes first. *)
Definition itemOf (fullKey : string) (p : PropertyOrBuilder) : TreeItem :=
  {| id := PathId fullKey;
     children :=
       match p with
       | Property _ dataType ps =>
           if bool_decide (dataType = "map")
           then map (λ kc, PathId (dotted fullKey kc.1)) ps else []
       | Builder _ => []
       end;
     data := {| property := Some p |} |}.

Lemma propertyToTreeItems_map fullKey t ps :
  propertyToTreeItems fullKey (Property t "map" ps)
  = (PathId fullKey, itemOf fullKey (Property t "map" ps))
    :: flat_map (λ kc, propertyToTreeItems (dotted fullKey kc.1) kc.2) ps.
Proof. reflexivity. Qed.

(** Every item of a property is keyed by a path at or below its own. *)
Lemma propertyToTreeItems_below p :
  ∀ fullKey i item, (i, item) ∈ propertyToTreeItems fullKey p →
    ∃ path, i = PathId path ∧ below fullKey path.
Proof.
  induction p as [h | t dt ps IH] using PropertyOrBuilder_nested_ind;
    intros fullKey i item Hin.
  - simpl in Hin. apply list_elem_of_singleton in Hin as [= -> _].
    exists fullKey. split; [done | apply below_refl].
  - destruct (decide (dt = "map")) as [-> | Hdt].
    + rewrite propertyToTreeItems_map in Hin.
      apply elem_of_cons in Hin as [[= -> _] | Hin].
      { exists fullKey. split; [done | apply below_refl]. }
      apply elem_of_flat_map in Hin as (kc & Hkc & Hin).
      rewrite Forall_forall in IH.
      destruct (IH kc Hkc _ _ _ Hin) as (path & -> & Hbelow).
      exists path. split; [done |]. by apply below_dotted with kc.1.
    + simpl in Hin. rewrite bool_decide_eq_false_2 in Hin by done.
      apply list_elem_of_singleton in Hin as [= -> _].
      exists fullKey. split; [done | apply below_refl].
Qed.

(** Every item is stored under its own id. *)
Lemma propertyToTreeItems_id p :
  ∀ fullKey i item, (i, item) ∈ propertyToTreeItems fullKey p → id item = i.
Proof.
  induction p as [h | t dt ps IH] using PropertyOrBuilder_nested_ind;
    intros fullKey i item Hin.
  - simpl in Hin. by apply list_elem_of_singleton in Hin as [= -> ->].
  - destruct (decide (dt = "map")) as [-> | Hdt].
    + rewrite propertyToTreeItems_map in Hin.
      apply elem_of_cons in Hin as [[= -> ->] | Hin]; [done |].
      apply elem_of_flat_map in Hin as (kc & Hkc & Hin).
      rewrite Forall_forall in IH. by apply (IH kc Hkc _ _ _ Hin).
    + simpl in Hin. rewrite bool_decide_eq_false_2 in Hin by done.
      by apply list_elem_of_singleton in Hin as [= -> ->].
Qed.

(** No two items of a well-formed property have the same id. *)
Lemma propertyToTreeItems_NoDup p :
  ∀ fullKey, wfProperty p = true → NoDup (propertyToTreeItems fullKey p).*1.
Proof.
  induction p as [h | t dt ps IH] using PropertyOrBuilder_nested_ind;
    intros fullKey Hwf.
  - simpl. apply NoDup_singleton.
  - destruct (decide (dt = "map")) as [-> | Hdt].
    2: { simpl. rewrite bool_decide_eq_false_2 by done. apply NoDup_singleton. }
    rewrite propertyToTreeItems_map. rewrite fmap_cons. simpl.
    apply wfProperty_map in Hwf as [Hkeys Hnested].
    apply NoDup_cons. split.
    + intros Hin. apply list_elem_of_fmap in Hin as ([i item] & Hi & Hin).
      simpl in Hi. subst i.
      apply elem_of_flat_map in Hin as (kc & Hkc & Hin).
      apply propertyToTreeItems_below in Hin as (path & [= <-] & Hbelow).
      by apply below_dotted_strict in Hbelow.
    + clear t. induction ps as [| [k c] ps IHps]; simpl; [apply NoDup_nil_2 |].
      rewrite fmap_app. simpl in Hkeys.
      apply NoDup_cons in Hkeys as [Hk Hkeys].
      apply Forall_cons in Hnested as [[Hdot Hwfc] Hnested].
      apply Forall_cons in IH as [IHc IH]. simpl in *.
      apply NoDup_app. split; [by apply IHc |]. split; [| by apply IHps].
      intros i Hi1 Hi2.
      apply list_elem_of_fmap in Hi1 as ([i1 item1] & -> & Hi1).
      apply list_elem_of_fmap in Hi2 as ([i2 item2] & Heq & Hi2).
      simpl in Heq. subst i2.
      apply propertyToTreeItems_below in Hi1 as (path & -> & Hbelow1).
      apply elem_of_flat_map in Hi2 as ([k' c'] & Hkc' & Hi2).
      apply propertyToTreeItems_below in Hi2 as (path' & [= <-] & Hbelow2).
      simpl in Hbelow2.
      assert (Hdot' : dotFree k' = true).
      { rewrite Forall_forall in Hnested. by destruct (Hnested _ Hkc'). }
      assert (k = k') as -> by by apply (below_distinct_keys fullKey k k' path).
      apply Hk. apply list_elem_of_fmap. by exists (k', c').
Qed.

Lemma propertyToTreeItems_functional p fullKey i item item' :
  wfProperty p = true →
  (i, item) ∈ propertyToTreeItems fullKey p →
  (i, item') ∈ propertyToTreeItems fullKey p →
  item = item'.
Proof.
  intros Hwf H1 H2.
  pose proof (propertyToTreeItems_NoDup p fullKey Hwf) as Hnodup.
  apply list_elem_of_lookup in H1 as [n1 H1].
  apply list_elem_of_lookup in H2 as [n2 H2].
  assert (n1 = n2) as ->.
  { apply (NoDup_lookup _ n1 n2 i Hnodup);
      rewrite list_lookup_fmap; [by rewrite H1 | by rewrite H2]. }
  congruence.
Qed.

(** ** Rebuilding a property from its items *)

Lemma treeItemToProperty_step fuel its i :
  treeItemToProperty (S fuel) its i
  = (item ← its !! i;
     p ← property (data item);
     match p with
     | Builder _ => Some p
     | Property title dataType _ =>
         if bool_decide (dataType = "map") then
           nested ← mapM (λ c, k ← itemKey c;
                               q ← treeItemToProperty fuel its c;
                               Some (k, q)) (children item);
           Some (Property title dataType nested)
         else Some p
     end).
Proof. reflexivity. Qed.

Lemma length_flat_map_elem {A B} (f : A → list B) (l : list A) (x : A) :
  x ∈ l → (length (f x) ≤ length (flat_map f l))%nat.
Proof.
  induction l as [| y l IH]; simpl; [by intros ?%elem_of_nil |].
  rewrite length_app. intros [-> | Hx]%elem_of_cons; [lia |].
  specialize (IH Hx). lia.
Qed.

(** In any item map that holds the items of a well-formed property, the
    property is rebuilt from its item, given fuel for each of its items. *)
Lemma treeItemToProperty_rebuild p :
  ∀ fullKey its fuel,
    wfProperty p = true →
    (∀ i item, (i, item) ∈ propertyToTreeItems fullKey p → its !! i = Some item) →
    (length (propertyToTreeItems fullKey p) ≤ fuel)%nat →
    treeItemToProperty fuel its (PathId fullKey) = Some p.
Proof.
  induction p as [h | t dt ps IH] using PropertyOrBuilder_nested_ind;
    intros fullKey its fuel Hwf Hits Hfuel.
  - destruct fuel as [| fuel]; [simpl in Hfuel; lia |].
    rewrite treeItemToProperty_step, (Hits _ (itemOf fullKey (Builder h))).
    + done.
    + simpl. left.
  - destruct (decide (dt = "map")) as [-> | Hdt].
    2: { destruct fuel as [| fuel];
           [simpl in Hfuel; rewrite bool_decide_eq_false_2 in Hfuel by done;
            simpl in Hfuel; lia |].
         rewrite treeItemToProperty_step,
           (Hits _ (itemOf fullKey (Property t dt ps))).
         - simpl. by rewrite bool_decide_eq_false_2.
         - simpl. rewrite bool_decide_eq_false_2 by done. unfold itemOf.
           rewrite bool_decide_eq_false_2 by done. left. }
    rewrite propertyToTreeItems_map in Hits, Hfuel.
    destruct fuel as [| fuel]; [simpl in Hfuel; lia |].
    simpl in Hfuel. apply le_S_n in Hfuel.
    rewrite treeItemToProperty_step,
      (Hits _ (itemOf fullKey (Property t "map" ps))) by left.
    simpl.
    apply wfProperty_map in Hwf as [Hkeys Hnested].
    assert (Hmap :
      mapM (λ c, k ← itemKey c; q ← treeItemToProperty fuel its c; Some (k, q))
        (map (λ kc, PathId (dotted fullKey kc.1)) ps) = Some ps).
    { apply mapM_Some_2, Forall2_fmap_l, Forall_Forall2_diag, Forall_forall.
      intros [k c] Hkc. simpl.
      rewrite Forall_forall in IH, Hnested.
      destruct (Hnested _ Hkc) as [Hdot Hwfc]. simpl in Hdot, Hwfc.
      rewrite lastSegment_dotted by done.
      rewrite (IH _ Hkc (dotted fullKey k) its fuel); [done | done | |].
      - intros i item Hin. apply Hits. right.
        apply elem_of_flat_map. by exists (k, c).
      - etrans; [| exact Hfuel].
        apply (length_flat_map_elem
                 (λ kc, propertyToTreeItems (dotted fullKey kc.1) kc.2) ps (k, c)).
        done. }
    by rewrite Hmap.
Qed.

(** ** The tree of a schema *)

Lemma list_to_map_functional {K A} `{Countable K} (l : list (K * A)) i x :
  (i, x) ∈ l → (∀ y, (i, y) ∈ l → y = x) →
  (list_to_map l : gmap K A) !! i = Some x.
Proof.
  intros Hin Hfun.
  destruct (list_to_map l !! i) as [y |] eqn:Hlookup.
  - apply elem_of_list_to_map_2 in Hlookup. by rewrite (Hfun y).
  - apply not_elem_of_list_to_map_2 in Hlookup. exfalso. apply Hlookup.
    apply list_elem_of_fmap. by exists (i, x).
Qed.

Lemma schemaInvariant_keys properties order :
  schemaInvariant properties order = true →
  ∀ k, k ∈ order ↔ is_Some (properties !! k).
Proof.
  unfold schemaInvariant. rewrite bool_decide_eq_true.
  intros Hdom k. rewrite <- elem_of_dom, <- Hdom. by rewrite elem_of_list_to_set.
Qed.

Lemma wfProperty_split p :
  keysOnce p = true → segmentsBelow p = true → wfProperty p = true.
Proof.
  induction p as [h | t dt ps IH] using PropertyOrBuilder_nested_ind;
    [done |].
  simpl. destruct (bool_decide (dt = "map")); [| done]. simpl.
  rewrite !andb_true_iff, !forallb_forall.
  intros [Hnodup Honce] Hsegments. split; [done |].
  intros kc Hin.
  specialize (Honce kc Hin). specialize (Hsegments kc Hin).
  apply andb_true_iff in Hsegments as [Hdot Hbelow].
  apply andb_true_iff. split; [done |].
  apply list_elem_of_In in Hin.
  by apply (proj1 (Forall_forall _ _) IH kc Hin).
Qed.

Lemma singleSegmentKeys_wf properties :
  nestedMappings properties = true →
  singleSegmentKeys properties = true →
  ∀ k p, properties !! k = Some p → dotFree k = true ∧ wfProperty p = true.
Proof.
  unfold nestedMappings, singleSegmentKeys. rewrite !bool_decide_eq_true.
  intros Honce Hall k p Hk.
  specialize (Honce k p Hk). specialize (Hall k p Hk). simpl in Honce.
  apply andb_true_iff in Hall as [Hdot Hbelow].
  split; [done |]. by apply wfProperty_split.
Qed.

(** The items of the top-level properties, in the order list. *)
Definition topItems (properties : gmap string PropertyOrBuilder)
    (order : list string) : list (ItemId * TreeItem) :=
  flat_map (λ k, match properties !! k with
                 | Some p => propertyToTreeItems k p
                 | None => []
                 end) order.

(** The items of the tree of a schema are keyed by their id, which is
    what [isValidDrag] relies on when it looks the destination parent up
    a second time. *)
Lemma propertiesToTree_keyed properties order i item :
  items (propertiesToTree properties order) !! i = Some item → id item = i.
Proof.
  simpl. destruct (decide (i = RootId)) as [-> | Hi].
  - rewrite lookup_insert_eq. by intros [= <-].
  - rewrite lookup_insert_ne by done. intros Hin.
    apply elem_of_list_to_map_2, elem_of_flat_map in Hin as (k & _ & Hin).
    destruct (properties !! k) as [p |]; [| by apply elem_of_nil in Hin].
    by apply propertyToTreeItems_id in Hin.
Qed.

Section Schema.

Variable properties : gmap string PropertyOrBuilder.
Variable order : list string.

Hypothesis order_keys : ∀ k, k ∈ order ↔ is_Some (properties !! k).
Hypothesis keys_wf : ∀ k p,
  properties !! k = Some p → dotFree k = true ∧ wfProperty p = true.

Lemma topItems_agree k p i item :
  k ∈ order → properties !! k = Some p →
  (i, item) ∈ propertyToTreeItems k p →
  (list_to_map (topItems properties order) : gmap ItemId TreeItem) !! i
  = Some item.
Proof.
  intros Hk Hp Hin. apply list_to_map_functional.
  - apply elem_of_flat_map. exists k. by rewrite Hp.
  - intros item' Hin'.
    apply elem_of_flat_map in Hin' as (k' & Hk' & Hin').
    destruct (properties !! k') as [p' |] eqn:Hp'; [| by apply elem_of_nil in Hin'].
    destruct (propertyToTreeItems_below _ _ _ _ Hin) as (path & -> & Hbelow).
    destruct (propertyToTreeItems_below _ _ _ _ Hin') as (path' & [= <-] & Hbelow').
    destruct (keys_wf k p Hp) as [Hdot Hwf].
    destruct (keys_wf k' p' Hp') as [Hdot' _].
    assert (k = k') as <- by by apply (below_distinct_top k k' path).
    assert (p' = p) as -> by congruence.
    by apply (propertyToTreeItems_functional p k (PathId path)).
Qed.

Lemma tree_agree k p i item :
  k ∈ order → properties !! k = Some p →
  (i, item) ∈ propertyToTreeItems k p →
  items (propertiesToTree properties order) !! i = Some item.
Proof.
  intros Hk Hp Hin. simpl.
  destruct (propertyToTreeItems_below _ _ _ _ Hin) as (path & -> & _).
  rewrite lookup_insert_ne by done. by apply topItems_agree with k p.
Qed.

(** The tree has fuel for every item of every top-level property. *)
Lemma tree_size k p :
  k ∈ order → properties !! k = Some p →
  (length (propertyToTreeItems k p)
   ≤ size (items (propertiesToTree properties order)))%nat.
Proof.
  intros Hk Hp. destruct (keys_wf k p Hp) as [_ Hwf].
  pose proof (propertyToTreeItems_NoDup p k Hwf) as Hnodup.
  rewrite <- (length_fmap fst), <- (size_list_to_set (C := gset ItemId)) by done.
  rewrite <- size_dom. apply subseteq_size.
  intros i Hi. apply elem_of_list_to_set in Hi.
  apply list_elem_of_fmap in Hi as ([i' item] & -> & Hin).
  apply elem_of_dom. exists item. by apply tree_agree with k p.
Qed.

(** The entries read off the children of the root. *)
Definition entriesOf (keys : list string) : list (string * PropertyOrBuilder) :=
  omap (λ k, (λ p, (k, p)) <$> properties !! k) keys.

Lemma entriesOf_rebuilt keys :
  (∀ k, k ∈ keys → k ∈ order) →
  let its := items (propertiesToTree properties order) in
  mapM (λ c, k ← itemKey c;
             q ← treeItemToProperty (size its) its c;
             Some (k, q)) (map PathId keys)
  = Some (entriesOf keys).
Proof.
  intros Hsub its. apply mapM_Some_2.
  induction keys as [| k keys IH]; simpl; [constructor |].
  assert (Hk : k ∈ order) by (apply Hsub; left).
  destruct (proj1 (order_keys k) Hk) as [p Hp].
  unfold entriesOf. simpl. rewrite Hp. simpl.
  destruct (keys_wf k p Hp) as [Hdot Hwf].
  constructor.
  - simpl. rewrite lastSegment_dotFree by done.
    rewrite (treeItemToProperty_rebuild p k its (size its)); [done | done | |].
    + intros i item Hin. by apply tree_agree with k p.
    + by apply tree_size.
  - apply IH. intros k' Hk'. apply Hsub. by right.
Qed.

Lemma entriesOf_keys keys :
  (∀ k, k ∈ keys → k ∈ order) → (entriesOf keys).*1 = keys.
Proof.
  intros Hsub. induction keys as [| k keys IH]; [done |].
  destruct (proj1 (order_keys k) (Hsub k ltac:(left))) as [p Hp].
  unfold entriesOf. simpl. rewrite Hp. simpl. f_equal.
  apply IH. intros k' Hk'. apply Hsub. by right.
Qed.

Lemma entriesOf_elem keys k p :
  (k, p) ∈ entriesOf keys ↔ k ∈ keys ∧ properties !! k = Some p.
Proof.
  unfold entriesOf. rewrite list_elem_of_omap. split.
  - intros (k' & Hk' & Heq).
    destruct (properties !! k') as [p' |] eqn:Hp'; [| done].
    simpl in Heq. by injection Heq as -> ->.
  - intros [Hk Hp]. exists k. by rewrite Hp.
Qed.

Lemma entriesOf_mapping : list_to_map (entriesOf order) = properties.
Proof.
  apply map_eq. intros k.
  destruct (properties !! k) as [p |] eqn:Hp.
  - apply list_to_map_functional.
    + apply entriesOf_elem. split; [| done]. apply order_keys. by rewrite Hp.
    + intros p' Hin. apply entriesOf_elem in Hin as [_ Hp']. congruence.
  - apply not_elem_of_list_to_map_1. rewrite entriesOf_keys by done.
    intros Hk. apply order_keys in Hk as [p Hp']. congruence.
Qed.

Lemma round_trip_under_key_invariant :
  treeToProperties (propertiesToTree properties order) = Some (properties, order).
Proof.
  unfold treeToProperties.
  replace (items (propertiesToTree properties order)
             !! rootId (propertiesToTree properties order))
    with (Some {| id := RootId; children := map PathId order;
                  data := {| property := None |} |})
    by (simpl; by rewrite lookup_insert_eq).
  cbn [mbind option_bind children].
  rewrite (entriesOf_rebuilt order) by done.
  cbn [mbind option_bind].
  by rewrite entriesOf_mapping, entriesOf_keys.
Qed.

End Schema.

(** ** What the round trip needs *)

Lemma lastSegment_is_segment s : dotFree (lastSegment s) = true.
Proof.
  induction s as [| c s IH]; [done |]. simpl.
  destruct (dotFree s) eqn:Hs; simpl; [| exact IH].
  destruct (isDot c) eqn:Hc; [exact Hs |]. simpl. by rewrite Hc, Hs.
Qed.

(** The keys that flattening reads off the tree are last segments: a
    property rebuilt from the tree has no dotted key below its maps. *)
Lemma treeItemToProperty_segments fuel its :
  ∀ i p, treeItemToProperty fuel its i = Some p → segmentsBelow p = true.
Proof.
  induction fuel as [| fuel IH]; intros i p; [done |].
  rewrite treeItemToProperty_step.
  destruct (its !! i) as [item |]; [| done]. cbn [mbind option_bind].
  destruct (property (data item)) as [[handle | title dataType ps] |];
    cbn [mbind option_bind]; [by intros [= <-] | | done].
  case_bool_decide as Hmap.
  - destruct (mapM _ (children item)) as [nested |] eqn:Hnested; [| done].
    cbn [mbind option_bind]. intros [= <-]. simpl.
    rewrite bool_decide_eq_true_2 by done. simpl.
    apply mapM_Some_1 in Hnested. apply forallb_forall.
    intros [k q] Hin. apply list_elem_of_In in Hin.
    apply list_elem_of_lookup in Hin as [n Hn].
    destruct (Forall2_lookup_r _ _ _ _ _ Hnested Hn) as (c & _ & Hc).
    destruct c as [| path]; [done |]. cbn [itemKey mbind option_bind] in Hc.
    destruct (treeItemToProperty fuel its (PathId path)) as [q' |] eqn:Hq;
      [| done].
    cbn [mbind option_bind] in Hc. injection Hc as <- <-.
    apply andb_true_iff. split.
    + apply lastSegment_is_segment.
    + by apply (IH (PathId path)).
  - intros [= <-]. simpl. by rewrite bool_decide_eq_false_2.
Qed.

(** The condition on keys is needed: whatever the mapping and the order
    list, the round trip yields them again only if every key is one path
    segment, at the top level and below the map properties. *)
Lemma round_trip_needs_segments properties order :
  treeToProperties (propertiesToTree properties order) = Some (properties, order) →
  singleSegmentKeys properties = true.
Proof.
  intros Hround. apply bool_decide_eq_true. intros k p Hk. simpl.
  apply andb_true_iff. revert Hround k p Hk.
  unfold treeToProperties.
  destruct (items (propertiesToTree properties order) !! _) as [root |];
    [| done].
  cbn [mbind option_bind].
  destruct (mapM _ (children root)) as [entries |] eqn:Hentries; [| done].
  cbn [mbind option_bind]. intros [= Hmap _] k p Hk.
  rewrite <- Hmap in Hk. apply elem_of_list_to_map_2 in Hk.
  apply mapM_Some_1 in Hentries.
  apply list_elem_of_lookup in Hk as [n Hn].
  destruct (Forall2_lookup_r _ _ _ _ _ Hentries Hn) as (c & _ & Hc).
  destruct c as [| path]; [done |]. cbn [itemKey mbind option_bind] in Hc.
  destruct (treeItemToProperty _ _ (PathId path)) as [q |] eqn:Hq; [| done].
  cbn [mbind option_bind] in Hc. injection Hc as <- <-. split.
  - apply lastSegment_is_segment.
  - by apply treeItemToProperty_segments in Hq.
Qed.




(** What the round trip yields there: the item [a.b] holds the nested
    property, which comes back twice, the second time under the key
    [b]. *)
Remark dotted_key_breaks_round_trip :
  treeToProperties (propertiesToTree dottedProperties dottedOrder)
  = Some (<["a" := Property "A" "map" [("b", Property "B" "string" [])]]>
          (<["b" := Property "B" "string" []]> ∅),
          ["a"; "b"]).
Proof. vm_compute. reflexivity. Qed.

End PropertyTreeProperties.

(** * Further properties of the reference dialog *)

Section ReferenceDialogSelection.
Import ReferenceDialog Examples.

Lemma toggleEntitySelection_ready props sel entity :
  toggleEntitySelection props {| selectedEntities := Some sel |} entity
  = ({| selectedEntities :=
          Some (if isSelectedIn sel entity
                then filter (λ item, id item ≠ id entity) sel
                else sel ++ [entity]) |},
     if onMultipleEntitiesSelected props
     then [MultipleEntitiesSelected
             (if isSelectedIn sel entity
              then filter (λ item, id item ≠ id entity) sel
              else sel ++ [entity])]
     else []).
Proof. reflexivity. Qed.

Lemma filter_other_id_ids (sel : list Entity) (entity : Entity) :
  map id (filter (λ item, id item ≠ id entity) sel)
  = filter (λ i, i ≠ id entity) (map id sel).
Proof.
  induction sel as [| e sel IH]; [done |]. simpl.
  destruct (decide (id e = id entity)) as [Heq | Hne].
  - rewrite !filter_cons_False by (intros H; by apply H). done.
  - rewrite !filter_cons_True by done. simpl. by rewrite IH.
Qed.

Lemma filter_all {A} (P : A → Prop) `{∀ x, Decision (P x)} (l : list A) :
  (∀ x, x ∈ l → P x) → filter P l = l.
Proof.
  induction l as [| x l IH]; intros Hall; [done |].
  rewrite filter_cons_True by (apply Hall; left).
  f_equal. apply IH. intros y Hy. apply Hall. by right.
Qed.

(** X1: a selection without two entities of one id stays so under every
    toggle. *)
Theorem toggleEntitySelection_keeps_ids_distinct props sel entity :
  NoDup (map id sel) →
  ∃ sel',
    selectedEntities
      (toggleEntitySelection props {| selectedEntities := Some sel |} entity).1
    = Some sel' ∧
    NoDup (map id sel').
Proof.
  intros Hnodup. rewrite toggleEntitySelection_ready. simpl.
  eexists. split; [reflexivity |].
  destruct (isSelectedIn sel entity) eqn:Hin.
  - rewrite filter_other_id_ids. by apply NoDup_filter.
  - apply isSelectedIn_false in Hin. rewrite map_app. simpl.
    apply NoDup_app. split; [done |]. split; [| apply NoDup_singleton].
    intros i Hi Hi'. apply list_elem_of_singleton in Hi'. by subst i.
Qed.

Lemma toggleEntitySelection_keeps_ids_distinct_witness :
  NoDup (map id [entityE1; entityE2]) ∧
  ∃ sel',
    selectedEntities
      (toggleEntitySelection multiSelectProps
         {| selectedEntities := Some [entityE1; entityE2] |} entityE3).1
    = Some sel' ∧
    NoDup (map id sel').
Proof.
  assert (H : NoDup (map id [entityE1; entityE2])).
  { apply (bool_decide_unpack _). vm_compute. exact I. }
  split; [exact H |].
  exact (toggleEntitySelection_keeps_ids_distinct multiSelectProps
           [entityE1; entityE2] entityE3 H).
Defined.

(** X2: toggling an entity that is not selected twice gives back the
    selection as it was; toggling one that is selected twice moves it to
    the end. *)
Theorem toggleEntitySelection_twice props sel entity :
  let st := {| selectedEntities := Some sel |} in
  let st2 :=
    (toggleEntitySelection props (toggleEntitySelection props st entity).1
       entity).1 in
  (id entity ∉ map id sel → st2 = st) ∧
  (id entity ∈ map id sel →
     st2 = {| selectedEntities :=
                Some (filter (λ item, id item ≠ id entity) sel ++ [entity]) |}).
Proof.
  intros st st2. subst st st2. rewrite toggleEntitySelection_ready.
  cbn [fst]. rewrite toggleEntitySelection_ready. cbn [fst]. split.
  - intros Hnot. rewrite (proj2 (isSelectedIn_false sel entity) Hnot).
    assert (Hin : isSelectedIn (sel ++ [entity]) entity = true).
    { apply isSelectedIn_true. rewrite map_app, elem_of_app. right. left. }
    rewrite Hin. f_equal. f_equal. rewrite filter_app.
    rewrite filter_cons_False by (intros H; by apply H).
    rewrite filter_nil, app_nil_r.
    apply filter_all. intros e He Heq. apply Hnot.
    rewrite <- Heq. apply list_elem_of_fmap. by exists e.
  - intros Hin. rewrite (proj2 (isSelectedIn_true sel entity) Hin).
    assert (Hout : isSelectedIn (filter (λ item, id item ≠ id entity) sel) entity
                   = false).
    { apply isSelectedIn_false. rewrite filter_other_id_ids.
      intros H. apply list_elem_of_filter in H as [H _]. by apply H. }
    by rewrite Hout.
Qed.

Lemma toggleEntitySelection_twice_witness :
  (id entityE3 ∉ map id [entityE1; entityE2]) ∧
  (toggleEntitySelection multiSelectProps
     (toggleEntitySelection multiSelectProps
        {| selectedEntities := Some [entityE1; entityE2] |} entityE3).1
     entityE3).1
  = {| selectedEntities := Some [entityE1; entityE2] |}.
Proof.
  assert (H : id entityE3 ∉ map id [entityE1; entityE2]).
  { apply (bool_decide_unpack _). vm_compute. exact I. }
  split; [exact H |].
  exact (proj1 (toggleEntitySelection_twice multiSelectProps
                  [entityE1; entityE2] entityE3) H).
Defined.

(** X3: the mark of the clicked entity flips at a toggle, and the marks
    of the entities of other ids stay. *)
Theorem toggleEntitySelection_flips_mark props sel entity :
  let st := {| selectedEntities := Some sel |} in
  let st' := (toggleEntitySelection props st entity).1 in
  isSelected st' entity = negb <$> isSelected st entity ∧
  ∀ other, id other ≠ id entity → isSelected st' other = isSelected st other.
Proof.
  intros st st'. subst st st'. rewrite toggleEntitySelection_ready.
  unfold isSelected. simpl. split.
  - f_equal. destruct (isSelectedIn sel entity) eqn:Hin; simpl.
    + apply isSelectedIn_false. rewrite filter_other_id_ids.
      intros H. apply list_elem_of_filter in H as [H _]. by apply H.
    + apply isSelectedIn_true. rewrite map_app, elem_of_app. right. left.
  - intros other Hne. f_equal. unfold isSelectedIn at 1 3.
    apply bool_decide_ext.
    destruct (isSelectedIn sel entity).
    + rewrite filter_other_id_ids, list_elem_of_filter. tauto.
    + rewrite map_app, elem_of_app. simpl. rewrite list_elem_of_singleton.
      tauto.
Qed.

End ReferenceDialogSelection.

(** * Further properties of the initial fetch *)

Section InitialFetchOrder.
Import ReferenceDialog Examples.

Lemma deliver_slots s : slots (deliver s) = slots s.
Proof.
  unfold deliver. destruct (delivered s); [done |].
  by destruct (allFulfilled (slots s)).
Qed.

Lemma deliver_unmounted s :
  unmounted s = true →
  dialog (deliver s) = dialog s ∧ unmounted (deliver s) = true.
Proof.
  intros Hu. unfold deliver. destruct (delivered s); [done |].
  destruct (allFulfilled (slots s)); simpl; by rewrite Hu.
Qed.

(** X4: once the dialog is unmounted, no fetch that settles changes its
    state any more. *)
Theorem unmounted_effect_keeps_state s evs :
  unmounted s = true → dialog (effectRun s evs) = dialog s.
Proof.
  unfold effectRun. revert s.
  induction evs as [| ev evs IH]; intros s Hu; simpl; [done |].
  assert (Hstep : dialog (effectStep s ev) = dialog s
                  ∧ unmounted (effectStep s ev) = true).
  { destruct ev as [i o |]; simpl; [| done].
    destruct (slots s !! i) as [[o' |] |]; try done.
    match goal with
    | |- context [deliver ?x] => destruct (deliver_unmounted x Hu) as [-> ->]
    end. done. }
  destruct Hstep as [Hd Hu']. by rewrite IH, Hd.
Qed.

Lemma unmounted_effect_keeps_state_witness :
  unmounted (effectRun (startEffect multiSelectProps initialState)
               [Settle 0 (Fulfilled (Some entityE1)); Unmount]) = true ∧
  selectedEntities
    (dialog (effectRun
               (effectRun (startEffect multiSelectProps initialState)
                  [Settle 0 (Fulfilled (Some entityE1)); Unmount])
               [Settle 1 (Fulfilled (Some entityE2))])) = None.
Proof.
  assert (Hu : unmounted (effectRun (startEffect multiSelectProps initialState)
                 [Settle 0 (Fulfilled (Some entityE1)); Unmount]) = true)
    by reflexivity.
  split; [exact Hu |].
  rewrite (unmounted_effect_keeps_state _
             [Settle 1 (Fulfilled (Some entityE2))] Hu).
  reflexivity.
Defined.

Lemma allFulfilled_lookup ss es i x :
  allFulfilled ss = Some es → ss !! i = Some x →
  ∃ e, x = Some (Fulfilled e).
Proof.
  revert es i. induction ss as [| s ss IH]; intros es i Hall Hi; [done |].
  simpl in Hall. destruct s as [[e |] |]; try done.
  destruct (allFulfilled ss) as [es' |] eqn:Hss; [| done].
  destruct i as [| i]; simpl in Hi.
  - injection Hi as <-. by exists e.
  - by apply (IH es' i).
Qed.

Lemma effectStep_settled s ev i o :
  slots s !! i = Some (Some o) → slots (effectStep s ev) !! i = Some (Some o).
Proof.
  intros Hi. destruct ev as [j o' |]; simpl; [| done].
  destruct (slots s !! j) as [[o'' |] |] eqn:Hj; try done.
  rewrite deliver_slots. simpl.
  rewrite list_lookup_insert_ne; [done |]. intros ->. congruence.
Qed.

Lemma effectRun_settled s evs i o :
  slots s !! i = Some (Some o) → slots (effectRun s evs) !! i = Some (Some o).
Proof.
  unfold effectRun. revert s.
  induction evs as [| ev evs IH]; intros s Hi; simpl; [done |].
  apply IH. by apply effectStep_settled.
Qed.

(** X5: when one of the initial fetches is rejected, no selection ever
    becomes visible, whatever settles afterwards. *)
Theorem rejected_fetch_never_shows_selection props ids evs evs' i :
  selectedEntityIds props = Some ids → collection props = true →
  slots (effectRun (startEffect props initialState) evs) !! i
  = Some (Some Rejected) →
  selectedEntities
    (dialog (effectRun (startEffect props initialState) (evs ++ evs')))
  = None.
Proof.
  intros Hids Hc Hrej.
  assert (Hinv : effectInvariant (length ids)
                   (effectRun (startEffect props initialState) (evs ++ evs'))).
  { apply effectRun_invariant. by apply startEffect_invariant. }
  destruct (selectedEntities (dialog (effectRun _ (evs ++ evs'))))
    as [sel |] eqn:Hsel; [| done].
  destruct (inv_visible _ _ Hinv sel Hsel) as (es & Hes & _).
  unfold effectRun in Hes. rewrite foldl_app in Hes.
  pose proof (effectRun_settled _ evs' _ _ Hrej) as Hrej'.
  unfold effectRun in Hrej'.
  destruct (allFulfilled_lookup _ _ _ _ Hes Hrej') as [e He]. discriminate.
Qed.

Lemma rejected_fetch_never_shows_selection_witness :
  selectedEntityIds multiSelectProps = Some ["e1"; "e2"] ∧
  collection multiSelectProps = true ∧
  slots (effectRun (startEffect multiSelectProps initialState)
           [Settle 1 Rejected]) !! 1 = Some (Some Rejected) ∧
  selectedEntities
    (dialog (effectRun (startEffect multiSelectProps initialState)
               ([Settle 1 Rejected] ++ [Settle 0 (Fulfilled (Some entityE1))])))
  = None.
Proof.
  split; [reflexivity |]. split; [reflexivity |]. split; [reflexivity |].
  exact (rejected_fetch_never_shows_selection multiSelectProps ["e1"; "e2"]
           [Settle 1 Rejected] [Settle 0 (Fulfilled (Some entityE1))] 1
           eq_refl eq_refl eq_refl).
Defined.

(** The slot an event settles. *)
Definition settledIndex (ev : EffectEvent) : option nat :=
  match ev with
  | Settle i _ => Some i
  | Unmount => None
  end.

(** While only pending slots are settled, each once, every settlement is
    recorded in its slot. *)
Lemma effectRun_records s evs :
  NoDup (omap settledIndex evs) →
  (∀ i o, Settle i o ∈ evs → slots s !! i = Some None) →
  length (slots (effectRun s evs)) = length (slots s) ∧
  ∀ i o, Settle i o ∈ evs → slots (effectRun s evs) !! i = Some (Some o).
Proof.
  unfold effectRun. revert s.
  induction evs as [| ev evs IH]; intros s Hnodup Hpending; simpl.
  { split; [done |]. intros i o H. by apply elem_of_nil in H. }
  destruct ev as [j oj |]; simpl in Hnodup.
  - apply NoDup_cons in Hnodup as [Hj Hnodup].
    assert (Hslot : slots s !! j = Some None) by (apply (Hpending j oj); left).
    assert (Hstep : slots (effectStep s (Settle j oj))
                    = <[j := Some oj]> (slots s)).
    { simpl. rewrite Hslot. by rewrite deliver_slots. }
    destruct (IH (effectStep s (Settle j oj)) Hnodup) as [Hlen Hrec].
    { intros i o Hin. rewrite Hstep.
      rewrite list_lookup_insert_ne.
      - apply (Hpending i o). by right.
      - intros ->. apply Hj. apply list_elem_of_omap. by exists (Settle i o). }
    split.
    { rewrite Hlen, Hstep. apply length_insert. }
    intros i o [[= -> ->] | Hin]%elem_of_cons; [| by apply Hrec].
    apply (effectRun_settled _ evs). rewrite Hstep.
    apply list_lookup_insert_eq. by apply lookup_lt_Some with None.
  - destruct (IH (effectStep s Unmount) Hnodup) as [Hlen Hrec].
    { intros i o Hin. apply (Hpending i o). by right. }
    split; [done |].
    intros i o [[=] | Hin]%elem_of_cons. by apply Hrec.
Qed.

Lemma allFulfilled_all es :
  allFulfilled (map (λ e, Some (Fulfilled e)) es) = Some es.
Proof. induction es as [| e es IH]; simpl; [done |]. by rewrite IH. Qed.

(** X6: the order in which the fetches are fulfilled does not matter:
    when the fetch of every id is fulfilled once, in any order, the
    selection is the list of the entities found, in the order of the
    ids. *)
Theorem initial_selection_any_order props ids es evs :
  selectedEntityIds props = Some ids → collection props = true →
  length es = length ids →
  evs ≡ₚ imap (λ i e, Settle i (Fulfilled e)) es →
  selectedEntities (dialog (effectRun (startEffect props initialState) evs))
  = Some (definedEntities es).
Proof.
  intros Hids Hc Hlen Hperm.
  set (s0 := startEffect props initialState).
  assert (Hin : ∀ i o, Settle i o ∈ evs ↔ ∃ e, o = Fulfilled e ∧ es !! i = Some e).
  { intros i o. rewrite Hperm, list_elem_of_lookup. split.
    - intros [n Hn]. rewrite list_lookup_imap in Hn.
      destruct (es !! n) as [e |] eqn:He; [| done].
      simpl in Hn. injection Hn as <- <-. by exists e.
    - intros (e & -> & He). exists i. rewrite list_lookup_imap. by rewrite He. }
  assert (Hnounmount : Unmount ∉ evs).
  { rewrite Hperm. intros H. apply list_elem_of_lookup in H as [n Hn].
    rewrite list_lookup_imap in Hn. by destruct (es !! n). }
  assert (Hnodup : NoDup (omap settledIndex evs)).
  { rewrite Hperm.
    assert (Hseq : ∀ k (l : list (option Entity)),
              omap settledIndex (imap (λ i e, Settle (k + i) (Fulfilled e)) l)
              = seq k (length l)).
    { intros k l. revert k. induction l as [| e l IH]; intros k; [done |].
      simpl. rewrite Nat.add_0_r. f_equal.
      rewrite <- (IH (S k)). f_equal. apply imap_ext. intros i x _.
      simpl. f_equal. lia. }
    rewrite (Hseq 0). apply NoDup_seq. }
  assert (Hslots0 : slots s0 = map (λ _, None) ids)
    by by apply startEffect_slots.
  destruct (effectRun_records s0 evs Hnodup) as [Hlength Hrec].
  { intros i o (e & -> & He)%Hin. rewrite Hslots0, list_lookup_fmap.
    destruct (ids !! i) eqn:Hi; [done |].
    apply lookup_ge_None in Hi. apply lookup_lt_Some in He. lia. }
  assert (Hslots : slots (effectRun s0 evs) = map (λ e, Some (Fulfilled e)) es).
  { apply list_eq. intros i. rewrite list_lookup_fmap.
    destruct (es !! i) as [e |] eqn:He; simpl.
    - apply Hrec, Hin. by exists e.
    - apply lookup_ge_None. apply lookup_ge_None in He.
      rewrite Hlength, Hslots0, length_map. lia. }
  assert (Hinv : effectInvariant (length ids) (effectRun s0 evs)).
  { apply effectRun_invariant. by apply startEffect_invariant. }
  apply (inv_mounted _ _ Hinv).
  - rewrite effectRun_mounted by done. apply startEffect_mounted.
  - rewrite Hslots. apply allFulfilled_all.
Qed.

Lemma initial_selection_any_order_witness :
  selectedEntityIds multiSelectProps = Some ["e1"; "e2"] ∧
  collection multiSelectProps = true ∧
  [Settle 1 (Fulfilled None); Settle 0 (Fulfilled (Some entityE1))]
  ≡ₚ imap (λ i e, Settle i (Fulfilled e)) [Some entityE1; None] ∧
  selectedEntities
    (dialog (effectRun (startEffect multiSelectProps initialState)
               [Settle 1 (Fulfilled None);
                Settle 0 (Fulfilled (Some entityE1))]))
  = Some [entityE1].
Proof.
  assert (Hperm :
    [Settle 1 (Fulfilled None); Settle 0 (Fulfilled (Some entityE1))]
    ≡ₚ imap (λ i e, Settle i (Fulfilled e)) [Some entityE1; None])
    by apply perm_swap.
  split; [reflexivity |]. split; [reflexivity |]. split; [exact Hperm |].
  exact (initial_selection_any_order multiSelectProps ["e1"; "e2"]
           [Some entityE1; None] _ eq_refl eq_refl eq_refl Hperm).
Defined.

End InitialFetchOrder.

(** * More of the schema editor *)

Module SchemaEditorView.
Import Models Tree SchemaUtil SchemaEditor.

(** ** The [SchemaEditor] component: loading the schema *)

(** What [schemaRegistry.findSchema] does for an id: it returns a schema,
    returns [undefined], or raises. *)
Inductive FindResult :=
| Found (schema : EntitySchema)
| NotFound
| FindRaises.

Record SchemaRegistry := mkRegistry {
  initialised : bool;
  findSchema : string → FindResult
}.

(** The two pieces of state of the component. *)
Record EditorState := mkEditor {
  schema : option EntitySchema;
  error : option string
}.

Definition initialEditor : EditorState := {| schema := None; error := None |}.

(** Truthiness of the optional [schemaId]: [undefined] and the empty
    string are falsy. *)
Definition hasSchemaId (schemaId : option string) : bool :=
  match schemaId with
  | Some s => negb (bool_decide (s = ""))
  | None => false
  end.

(** [const isNewSchema = !schemaId] *)
Definition isNewSchema (schemaId : option string) : bool :=
  negb (hasSchemaId schemaId).

(** The effect that looks the schema up.  In the [catch] the state
    variable [error] itself is passed to [setError]. *)
Definition loadEffect (registry : SchemaRegistry) (schemaId : option string)
    (st : EditorState) : EditorState :=
  if initialised registry then
    if hasSchemaId schemaId then
      match findSchema registry (default "" schemaId) with
      | Found s => {| schema := Some s; error := error st |}
      | NotFound => {| schema := None; error := error st |}
      | FindRaises => {| schema := schema st; error := error st |}
      end
    else {| schema := None; error := error st |}
  else st.

(** The state change of [saveSchema]: [setError(undefined)] once the
    schema is persisted. *)
Definition savedEffect (outcome : SaveOutcome) (st : EditorState) : EditorState :=
  match outcome with
  | SaveFulfilled => {| schema := schema st; error := None |}
  | SaveRejected => st
  end.

Inductive EditorEvent :=
| Load (registry : SchemaRegistry) (schemaId : option string)
| Saved (outcome : SaveOutcome).

Definition editorStep (st : EditorState) (ev : EditorEvent) : EditorState :=
  match ev with
  | Load registry schemaId => loadEffect registry schemaId st
  | Saved outcome => savedEffect outcome st
  end.

(** What the component renders. *)
Inductive EditorView :=
| Raised (message : string)
| ErrorView (message : string)
| CircularProgressCenter
| Form (initialValues : EntitySchema) (isNew : bool).

Definition emptySchema : EntitySchema :=
  {| id := ""; name := ""; properties := ∅; propertiesOrder := None |}.

Definition renderEditor (configurationPersistence : bool)
    (registry : SchemaRegistry) (schemaId : option string)
    (st : EditorState) : EditorView :=
  if negb configurationPersistence then
    Raised "Can't use the schema editor without specifying a `ConfigurationPersistence`"
  else if bool_decide (is_Some (error st)) then
    ErrorView ("Error fetching schema " +:+ default "undefined" schemaId)
  else if negb (initialised registry)
          || negb (isNewSchema schemaId || bool_decide (is_Some (schema st)))
  then CircularProgressCenter
  else Form (default emptySchema (schema st)) (isNewSchema schemaId).

(** ** The [SchemaEditorForm] component: selecting and adding properties *)

Record ViewState := mkView {
  form : FormState;
  selectedPropertyId : option string;
  newPropertyDialogOpen : bool
}.

Definition onPropertyClick (v : ViewState) (propertyId : string) : ViewState :=
  {| form := form v; selectedPropertyId := Some propertyId;
     newPropertyDialogOpen := newPropertyDialogOpen v |}.

(** [selectedPropertyId ? values.properties[selectedPropertyId] : undefined] *)
Definition selectedProperty (v : ViewState) : option PropertyOrBuilder :=
  match selectedPropertyId v with
  | Some i => if bool_decide (i = "") then None
              else properties (values (form v)) !! i
  | None => None
  end.

(** [typeof selectedProperty === "object"] *)
Definition isObject (p : option PropertyOrBuilder) : bool :=
  match p with Some (Property _ _ _) => true | _ => false end.

(** Whether the property form is rendered (side by side or as a dialog),
    and whether the hint to select a property is shown in its place. *)
Definition editFormRendered (v : ViewState) : bool :=
  isObject (selectedProperty v).

Definition selectHintShown (largeLayout : bool) (v : ViewState) : bool :=
  largeLayout && negb (bool_decide (is_Some (selectedProperty v))).

(** [s.replace(".", ".properties.")]: a string pattern replaces the first
    occurrence only. *)
Fixpoint replaceFirstDot (s : string) : string :=
  match s with
  | EmptyString => EmptyString
  | String c s' =>
      if isDot c then ".properties." +:+ s'
      else String c (replaceFirstDot s')
  end.

(** The path [onPropertyChanged] writes the edited property to. *)
Definition propertyPath (selectedPropertyId : option string) : option string :=
  match selectedPropertyId with
  | Some i => if bool_decide (i = "") then None
              else Some ("properties." +:+ replaceFirstDot i)
  | None => None
  end.

Definition onPropertyCreated (v : ViewState) (i : string)
    (property : PropertyOrBuilder) : ViewState :=
  let props := properties (values (form v)) in
  let order := propertiesOrder (values (form v)) in
  {| form :=
       setFieldValue_propertiesOrder
         (setFieldValue_properties (form v) (<[i := property]> props))
         (default [] order ++ [i]);
     selectedPropertyId := selectedPropertyId v;
     newPropertyDialogOpen := false |}.

End SchemaEditorView.

Section SchemaEditorViewProperties.
Import Models Tree SchemaUtil SchemaEditor SchemaEditorView Examples.

Lemma editorStep_error st ev : error st = None → error (editorStep st ev) = None.
Proof.
  intros He. destruct ev as [registry schemaId | outcome]; simpl.
  - unfold loadEffect. destruct (initialised registry); [| done].
    destruct (hasSchemaId schemaId); [| done].
    by destruct (findSchema registry _).
  - by destruct outcome.
Qed.

(** X7: the error view is never rendered: whatever the registry does
    (also when [findSchema] raises) and however saves end, the [error]
    state stays undefined. *)
Theorem error_view_never_rendered evs configurationPersistence registry schemaId :
  let st := foldl editorStep initialEditor evs in
  error st = None ∧
  ∀ message,
    renderEditor configurationPersistence registry schemaId st
    ≠ ErrorView message.
Proof.
  assert (Herr : ∀ st, error st = None →
                   error (foldl editorStep st evs) = None).
  { induction evs as [| ev evs IH]; intros st He; simpl; [done |].
    apply IH. by apply editorStep_error. }
  simpl. specialize (Herr initialEditor eq_refl). split; [done |].
  intros message. unfold renderEditor. rewrite Herr.
  destruct configurationPersistence; simpl; [| done].
  by destruct (_ || _).
Qed.

(** X8: with the registry initialised, a new schema is edited in a form
    with empty initial values, and an existing one in a form with the
    schema found; when the schema is not found or the lookup raises, the
    progress indicator stays. *)
Theorem loaded_schema_view registry schemaId :
  initialised registry = true →
  let st := loadEffect registry schemaId initialEditor in
  (hasSchemaId schemaId = false →
     renderEditor true registry schemaId st = Form emptySchema true) ∧
  (∀ s found, schemaId = Some s → s ≠ "" →
     findSchema registry s = Found found →
     renderEditor true registry schemaId st = Form found false) ∧
  (∀ s, schemaId = Some s → s ≠ "" →
     findSchema registry s = NotFound ∨ findSchema registry s = FindRaises →
     renderEditor true registry schemaId st = CircularProgressCenter).
Proof.
  intros Hinit st. subst st. unfold loadEffect, renderEditor, isNewSchema.
  rewrite Hinit. split; [| split].
  - intros Hnew. rewrite Hnew. reflexivity.
  - intros s found -> Hs Hfound. simpl.
    rewrite (bool_decide_eq_false_2 (s = "")) by done. simpl. rewrite Hfound.
    reflexivity.
  - intros s -> Hs Hfound. simpl.
    rewrite (bool_decide_eq_false_2 (s = "")) by done. simpl.
    destruct Hfound as [-> | ->]; reflexivity.
Qed.


Definition productRegistry : SchemaRegistry :=
  {| initialised := true;
     findSchema := λ s, if bool_decide (s = "product")
                        then Found (values productForm) else NotFound |}.

Lemma loaded_schema_view_witness :
  initialised productRegistry = true ∧
  renderEditor true productRegistry None
    (loadEffect productRegistry None initialEditor) = Form emptySchema true ∧
  renderEditor true productRegistry (Some "product")
    (loadEffect productRegistry (Some "product") initialEditor)
  = Form (values productForm) false ∧
  renderEditor true productRegistry (Some "order")
    (loadEffect productRegistry (Some "order") initialEditor)
  = CircularProgressCenter.
Proof.
  split; [reflexivity |].
  destruct (loaded_schema_view productRegistry None eq_refl) as (Hnew & _ & _).
  split; [exact (Hnew eq_refl) |].
  destruct (loaded_schema_view productRegistry (Some "product") eq_refl)
    as (_ & Hfound & _).
  split.
  { apply (Hfound "product" (values productForm) eq_refl);
      [discriminate | reflexivity]. }
  destruct (loaded_schema_view productRegistry (Some "order") eq_refl)
    as (_ & _ & Hmissing).
  apply (Hmissing "order" eq_refl); [discriminate | left; reflexivity].
Defined.

(** ** Selecting a property *)

Lemma dotFree_dotted p k : dotFree (dotted p k) = false.
Proof. apply (dotFree_dotted_tail p k). Qed.

Lemma dotted_not_empty p k : dotted p k ≠ "".
Proof. unfold dotted. destruct p; discriminate. Qed.

(** X9: the property form never opens for a nested property: the tree
    item of a nested property is keyed by a dotted path, which is no key
    of the top-level mapping as long as the top-level keys hold no dot,
    so [selectedProperty] is undefined after a click on it. *)
Theorem nested_property_has_no_form (v : ViewState) (p k : string) :
  (∀ key, is_Some (properties (values (form v)) !! key) → dotFree key = true) →
  let v' := onPropertyClick v (dotted p k) in
  selectedPropertyId v' = Some (dotted p k) ∧
  selectedProperty v' = None ∧
  editFormRendered v' = false ∧
  selectHintShown true v' = true.
Proof.
  intros Hkeys v'. subst v'.
  assert (Hnone : selectedProperty (onPropertyClick v (dotted p k)) = None).
  { unfold selectedProperty. simpl.
    rewrite bool_decide_eq_false_2 by apply dotted_not_empty.
    destruct (properties (values (form v)) !! dotted p k) eqn:Hlookup; [| done].
    assert (Hfree : dotFree (dotted p k) = true)
      by (apply Hkeys; by rewrite Hlookup).
    rewrite dotFree_dotted in Hfree. discriminate. }
  split; [done |]. split; [done |].
  unfold editFormRendered, selectHintShown. rewrite Hnone. done.
Qed.

Definition productView : ViewState :=
  {| form := productForm; selectedPropertyId := None;
     newPropertyDialogOpen := false |}.

Lemma nested_property_has_no_form_witness :
  (∀ key, is_Some (properties (values (form productView)) !! key) →
          dotFree key = true) ∧
  selectedProperty (onPropertyClick productView (dotted "address" "street"))
  = None ∧
  editFormRendered (onPropertyClick productView "address") = true.
Proof.
  assert (Hkeys : ∀ key,
            is_Some (properties (values (form productView)) !! key) →
            dotFree key = true).
  { intros key Hkey.
    assert (Hall : map_Forall (λ k _, dotFree k = true) productProperties).
    { apply (bool_decide_unpack _). vm_compute. exact I. }
    destruct Hkey as [q Hq]. exact (Hall key q Hq). }
  split; [exact Hkeys |]. split; [| reflexivity].
  destruct (nested_property_has_no_form productView "address" "street" Hkeys)
    as (_ & Hnone & _).
  exact Hnone.
Defined.

(** ** The path an edited property is written to *)

Lemma replaceFirstDot_segment k rest :
  dotFree k = true →
  replaceFirstDot (k +:+ String "." rest) = k +:+ ".properties." +:+ rest.
Proof.
  intros Hk. induction k as [| c k IH].
  - reflexivity.
  - simpl in Hk. apply andb_true_iff in Hk as [Hc Hk].
    apply negb_true_iff in Hc.
    rewrite !app_String. simpl. rewrite Hc. f_equal. by apply IH.
Qed.

Lemma replaceFirstDot_dotFree k : dotFree k = true → replaceFirstDot k = k.
Proof.
  induction k as [| c k IH]; [done |]. simpl.
  rewrite andb_true_iff, negb_true_iff. intros [Hc Hk].
  rewrite Hc. f_equal. by apply IH.
Qed.

(** X10: the path of an edited property.  For a top-level key it is
    [properties.key]; for a dotted id only the first dot is expanded to
    [.properties.], so with keys [a], [b], [c] the id [a.b] gives
    [properties.a.properties.b] and the id [a.b.c] gives
    [properties.a.properties.b.c]. *)
Theorem propertyPath_expands_first_dot (k rest : string) :
  dotFree k = true → k ≠ "" →
  propertyPath (Some k) = Some ("properties." +:+ k) ∧
  propertyPath (Some (dotted k rest))
  = Some ("properties." +:+ k +:+ ".properties." +:+ rest).
Proof.
  intros Hk Hne. unfold propertyPath. split.
  - rewrite bool_decide_eq_false_2 by done.
    by rewrite replaceFirstDot_dotFree.
  - rewrite bool_decide_eq_false_2 by apply dotted_not_empty.
    unfold dotted. change (k +:+ "." +:+ rest) with (k +:+ String "." rest).
    by rewrite replaceFirstDot_segment.
Qed.

Lemma propertyPath_expands_first_dot_witness :
  dotFree "a" = true ∧ "a" ≠ "" ∧
  propertyPath (Some "a.b") = Some "properties.a.properties.b" ∧
  propertyPath (Some "a.b.c") = Some "properties.a.properties.b.c".
Proof.
  split; [reflexivity |]. split; [discriminate |].
  split.
  - exact (proj2 (propertyPath_expands_first_dot "a" "b" eq_refl
                    ltac:(discriminate))).
  - exact (proj2 (propertyPath_expands_first_dot "a" "b.c" eq_refl
                    ltac:(discriminate))).
Defined.


(** ** Adding a property *)

Lemma onPropertyCreated_values v i property :
  values (form (onPropertyCreated v i property))
  = {| id := id (values (form v)); name := name (values (form v));
       properties := <[i := property]> (properties (values (form v)));
       propertiesOrder :=
         Some (default [] (propertiesOrder (values (form v))) ++ [i]) |}.
Proof. reflexivity. Qed.

(** X11: adding a property keeps the keys of the mapping and the order
    list the same: the new key is stored with the new property, the other
    keys keep theirs, the key comes last in the order list, and the
    dialog is closed. *)
Theorem onPropertyCreated_keeps_keys v i property order :
  propertiesOrder (values (form v)) = Some order →
  list_to_set order = dom (properties (values (form v))) →
  let v' := onPropertyCreated v i property in
  propertiesOrder (values (form v')) = Some (order ++ [i]) ∧
  list_to_set (order ++ [i]) = dom (properties (values (form v'))) ∧
  properties (values (form v')) !! i = Some property ∧
  (∀ k, k ≠ i →
     properties (values (form v')) !! k = properties (values (form v)) !! k) ∧
  newPropertyDialogOpen v' = false.
Proof.
  intros Horder Hkeys v'. subst v'. rewrite onPropertyCreated_values. simpl.
  rewrite Horder. simpl. split; [done |]. split; [| split; [| split]].
  - rewrite dom_insert_L, list_to_set_app_L, Hkeys. simpl.
    rewrite (right_id_L ∅ (∪)). apply (comm_L (∪)).
  - apply lookup_insert_eq.
  - intros k Hk. by apply lookup_insert_ne.
  - done.
Qed.

Lemma onPropertyCreated_keeps_keys_witness :
  propertiesOrder (values (form productView)) = Some productOrder ∧
  list_to_set productOrder = dom (properties (values (form productView))) ∧
  propertiesOrder
    (values (form (onPropertyCreated productView "sku"
                     (Property "Sku" "string" []))))
  = Some ["address"; "title"; "price"; "sku"].
Proof.
  assert (Hkeys : list_to_set productOrder
                  = dom (properties (values (form productView))))
    by (vm_compute; reflexivity).
  split; [reflexivity |]. split; [exact Hkeys |].
  destruct (onPropertyCreated_keeps_keys productView "sku"
              (Property "Sku" "string" []) productOrder eq_refl Hkeys)
    as (Horder & _).
  exact Horder.
Defined.

(** X12: the order list after adding a property is the old one, or the
    empty one when the schema had none, with the key appended.  So a key
    that was listed already is listed twice, and for a schema without
    order list the keys it had are not listed. *)
Theorem onPropertyCreated_order_edges v i property :
  let order := default [] (propertiesOrder (values (form v))) in
  let v' := onPropertyCreated v i property in
  propertiesOrder (values (form v')) = Some (order ++ [i]) ∧
  (NoDup (order ++ [i]) ↔ NoDup order ∧ i ∉ order) ∧
  (propertiesOrder (values (form v)) = None →
   ∀ k, k ≠ i → is_Some (properties (values (form v)) !! k) →
     is_Some (properties (values (form v')) !! k) ∧ k ∉ order ++ [i]).
Proof.
  intros order v'. subst order v'. rewrite onPropertyCreated_values. simpl.
  split; [done |]. split.
  - rewrite NoDup_app. split.
    + intros (Hnodup & Hdisj & _). split; [done |].
      intros Hin. apply (Hdisj i Hin). left.
    + intros [Hnodup Hnot]. split; [done |]. split; [| apply NoDup_singleton].
      intros k Hk Hk'. apply list_elem_of_singleton in Hk'. by subst k.
  - intros Hnone k Hk Hsome. rewrite Hnone. simpl. split.
    + by rewrite lookup_insert_ne.
    + intros Hin. apply list_elem_of_singleton in Hin. done.
Qed.

(** ** The id of an existing schema, and pending moves *)

(** X13: for a schema that is not new, no run of changes to the name
    alters the id. *)
Theorem existing_schema_keeps_id (slug : string → string) st names :
  id (values (changeNames slug false st names)) = id (values st).
Proof.
  unfold changeNames. revert st.
  induction names as [| n names IH]; intros st; simpl; [done |].
  rewrite IH. unfold changeName, idEffect. case_bool_decide; [done |].
  by rewrite andb_false_r.
Qed.

(** X14: a pending move is applied at most once: accepting clears it, so
    that accepting again, or accepting after a cancel, changes nothing. *)
Theorem pending_move_applied_once st :
  pendingMove (onAccept st) = None ∧
  onAccept (onAccept st) = onAccept st ∧
  onAccept (onCancel st) = onCancel st ∧
  onCancel (onAccept st) = onAccept st.
Proof.
  assert (Hclear : pendingMove (onAccept st) = None).
  { unfold onAccept. destruct (pendingMove st) as [[source destination] |];
      [| done].
    by rewrite doPropertyMove_pendingMove. }
  assert (Hid : ∀ s, pendingMove s = None → withPendingMove s None = s).
  { intros [v iv t pm] Hpm. simpl in Hpm. by subst pm. }
  split; [done |]. split; [| split].
  - unfold onAccept at 1. rewrite Hclear. by apply Hid.
  - reflexivity.
  - unfold onCancel. by apply Hid.
Qed.

(** X15: [isValidDrag] does not compare the dragged item with the
    destination: a map property may be dropped into itself. *)
Theorem isValidDrag_accepts_drop_into_itself (t : TreeData)
    (source : TreeSourcePosition) (sourceParent dragged : TreeItem)
    (draggedId : ItemId) (i : nat) :
  items t !! src_parentId source = Some sourceParent →
  children sourceParent !! src_index source = Some draggedId →
  items t !! draggedId = Some dragged →
  Tree.id dragged = draggedId →
  isMapProperty (property (data dragged)) = true →
  isValidDrag t source {| dst_parentId := draggedId; dst_index := Some i |}
  = Some true.
Proof.
  intros Hparent Hindex Hdragged Hid Hmap. unfold isValidDrag.
  rewrite Hparent. simpl. rewrite Hindex. simpl. rewrite Hdragged. simpl.
  assert (Hfun : isFunction (property (data dragged)) = false).
  { destruct (property (data dragged)) as [[h | ? ? ?] |]; done. }
  rewrite Hfun. case_bool_decide; [done |].
  rewrite Hid, Hdragged. simpl. by rewrite Hmap.
Qed.

Lemma isValidDrag_accepts_drop_into_itself_witness :
  isValidDrag (tree (values productForm))
    {| src_parentId := RootId; src_index := 0 |}
    {| dst_parentId := PathId "address"; dst_index := Some 0 |}
  = Some true.
Proof.
  apply (isValidDrag_accepts_drop_into_itself (tree (values productForm))
           {| src_parentId := RootId; src_index := 0 |}
           {| Tree.id := RootId; children := map PathId productOrder;
              data := {| property := None |} |}
           {| Tree.id := PathId "address";
              children := [PathId "address.street"; PathId "address.geo"];
              data := {| property :=
                Some (Property "Address" "map"
                  [("street", Property "Street" "string" []);
                   ("geo", Property "Geo" "map"
                      [("lat", Property "Lat" "number" []);
                       ("lng", Builder 1)])]) |} |}
           (PathId "address") 0);
    try reflexivity; vm_compute; reflexivity.
Defined.

Definition unorderedView : ViewState :=
  {| form := withValues productForm
               {| id := "product"; name := "Product";
                  properties := productProperties; propertiesOrder := None |};
     selectedPropertyId := None; newPropertyDialogOpen := true |}.

Lemma onPropertyCreated_order_edges_witness :
  propertiesOrder (values (form unorderedView)) = None ∧
  "title" ≠ "sku" ∧
  is_Some (properties (values (form unorderedView)) !! "title") ∧
  propertiesOrder
    (values (form (onPropertyCreated unorderedView "sku"
                     (Property "Sku" "string" [])))) = Some ["sku"] ∧
  ("title" ∉ default [] (propertiesOrder (values (form unorderedView)))
             ++ ["sku"]).
Proof.
  assert (Htitle : is_Some (properties (values (form unorderedView)) !! "title"))
    by (vm_compute; by eexists).
  destruct (onPropertyCreated_order_edges unorderedView "sku"
              (Property "Sku" "string" [])) as (Horder & _ & Hmissing).
  split; [reflexivity |]. split; [discriminate |]. split; [exact Htitle |].
  split; [exact Horder |].
  exact (proj2 (Hmissing eq_refl "title" ltac:(discriminate) Htitle)).
Defined.

End SchemaEditorViewProperties.

(** * The submit listener (the SubmitListener component) *)

Module SubmitListener.

Section Listener.

(** The values of the form, compared by deep equality. *)
Context {V : Type} `{EqDecision V}.

(** What the listener reads of the Formik context at a render. *)
Record Formik := mkFormik {
  values : V;
  initialValues : V;
  isValid : bool
}.

(** [lastValues], and the timeout that is armed, if any, with the guard
    its [doSubmit] closure has captured. *)
Record State := mkListener {
  lastValues : V;
  timer : option bool
}.

(** The effect with dependencies [formik.values, formik.isValid]: the
    clean-up of the run before clears its timeout, then a new one is
    set. *)
Definition effect (st : State) (f : Formik) : State :=
  let valuesEqualLastValues := bool_decide (lastValues st = values f) in
  let valuesEqualInitialValues := bool_decide (values f = initialValues f) in
  {| lastValues := if valuesEqualLastValues then lastValues st else values f;
     timer := Some (negb valuesEqualLastValues
                    && negb valuesEqualInitialValues && isValid f) |}.

(** Mounting: [useState(formik.values)] and the first run of the effect. *)
Definition mount (f : Formik) : State :=
  effect {| lastValues := values f; timer := None |} f.

Inductive Event :=
| Render (f : Formik)
| TimerFires
| Unmount.

(** One event; the number counts the calls of [formik.submitForm]. *)
Definition step (s : State * nat) (ev : Event) : State * nat :=
  match ev with
  | Render f => (effect s.1 f, s.2)
  | TimerFires =>
      match timer s.1 with
      | Some doSubmit =>
          ({| lastValues := lastValues s.1; timer := None |},
           if doSubmit then S s.2 else s.2)
      | None => s
      end
  | Unmount => ({| lastValues := lastValues s.1; timer := None |}, s.2)
  end.

Definition run (s : State * nat) (evs : list Event) : State * nat :=
  foldl step s evs.

End Listener.

End SubmitListener.

Section SubmitListenerProperties.
Import SubmitListener.

Context {V : Type} `{EqDecision V}.

Lemma effect_lastValues (st : State) (f : Formik (V := V)) :
  lastValues (effect st f) = values f.
Proof. unfold effect. simpl. by case_bool_decide. Qed.

Lemma run_renders (s : State * nat) (fs : list (Formik (V := V))) :
  (run s (map Render fs)).2 = s.2 ∧
  lastValues (run s (map Render fs)).1
  = default (lastValues s.1) (values <$> last fs).
Proof.
  unfold run. revert s. induction fs as [| f fs IH]; intros s; [done |].
  cbn [map foldl]. destruct (IH (step s (Render f))) as [Hn Hlast].
  split; [by rewrite Hn |]. rewrite Hlast. cbn [step fst].
  rewrite effect_lastValues.
  destruct fs as [| f' fs]; [done |].
  change (last (f :: f' :: fs)) with (last (f' :: fs)).
  destruct (last (f' :: fs)) eqn:Hl; [done |].
  apply last_None in Hl. discriminate.
Qed.


(** Renders since the last time the timeout was cleared or fired. *)
Definition armed (st : State (V := V)) : nat :=
  match timer st with Some true => 1 | _ => 0 end.

Fixpoint renders (evs : list (Event (V := V))) : nat :=
  match evs with
  | [] => 0
  | Render _ :: evs' => S (renders evs')
  | _ :: evs' => renders evs'
  end.


End SubmitListenerProperties.

Section SubmitListenerExample.
Import SubmitListener.


End SubmitListenerExample.

(** * The Firebase storage source (useFirebaseStorageSource) *)

Module FirebaseStorageSource.

Section Cache.

(** [urlsCache] is a plain object: a name that [Object.prototype]
    defines is found in it even when nothing was stored under it.
    [inherited] tells these names. *)
Variable inherited : string → bool.

(** The cache, from storage paths to promises, and the paths the storage
    backend was asked for, in order.  The promise of a request is named
    by the position of the request. *)
Record StorageState := mkStorage {
  urlsCache : gmap string nat;
  requested : list string
}.

Definition emptyStorage : StorageState :=
  {| urlsCache := ∅; requested := [] |}.

(** What [getDownloadURL] returns: a promise of the backend, or the
    member of [Object.prototype] found under the name. *)
Inductive Returned :=
| DownloadURL (promise : nat)
| InheritedMember (name : string).

Definition getDownloadURL (st : StorageState) (storagePath : string)
    : StorageState * Returned :=
  match urlsCache st !! storagePath with
  | Some promise => (st, DownloadURL promise)
  | None =>
      if inherited storagePath then (st, InheritedMember storagePath)
      else
        let downloadURL := length (requested st) in
        ({| urlsCache := <[storagePath := downloadURL]> (urlsCache st);
            requested := requested st ++ [storagePath] |},
         DownloadURL downloadURL)
  end.

(** A run of calls. *)
Definition getDownloadURLs (st : StorageState) (paths : list string)
    : StorageState :=
  foldl (λ s p, (getDownloadURL s p).1) st paths.

End Cache.

End FirebaseStorageSource.

Section StorageProperties.
Import FirebaseStorageSource.

Variable inherited : string → bool.

Lemma getDownloadURL_cached st path promise :
  urlsCache st !! path = Some promise →
  ∀ other, urlsCache (getDownloadURL inherited st other).1 !! path
           = Some promise.
Proof.
  intros Hp other. unfold getDownloadURL.
  destruct (urlsCache st !! other) eqn:Ho; [done |].
  destruct (inherited other); [done |]. simpl.
  rewrite lookup_insert_ne; [done |]. intros ->. congruence.
Qed.

Lemma getDownloadURL_inherited st path :
  urlsCache st !! path = None → inherited path = true →
  ∀ other, urlsCache (getDownloadURL inherited st other).1 !! path = None.
Proof.
  intros Hp Hi other. unfold getDownloadURL.
  destruct (urlsCache st !! other) eqn:Ho; [done |].
  destruct (inherited other) eqn:Hio; [done |]. simpl.
  rewrite lookup_insert_ne; [done |]. intros ->. congruence.
Qed.

(** X18: the download URL of a path is asked for once: after a call for
    a path, whatever other calls follow, a call for the same path returns
    what the first returned and leaves the state alone, so the backend is
    not asked again (also when the promise was rejected). *)
Theorem getDownloadURL_memoized st path paths :
  let first := getDownloadURL inherited st path in
  let st' := getDownloadURLs inherited first.1 paths in
  getDownloadURL inherited st' path = (st', first.2).
Proof.
  intros first st'. subst first st'. unfold getDownloadURLs.
  assert (Hcase :
    (∃ p, urlsCache (getDownloadURL inherited st path).1 !! path = Some p
          ∧ (getDownloadURL inherited st path).2 = DownloadURL p)
    ∨ (urlsCache (getDownloadURL inherited st path).1 !! path = None
       ∧ inherited path = true
       ∧ (getDownloadURL inherited st path).2 = InheritedMember path)).
  { unfold getDownloadURL.
    destruct (urlsCache st !! path) as [p |] eqn:Hp.
    - left. by exists p.
    - destruct (inherited path) eqn:Hi.
      + right. done.
      + left. eexists. simpl. by rewrite lookup_insert_eq. }
  generalize dependent (getDownloadURL inherited st path).
  intros [st1 r1] Hcase. simpl in *. revert st1 Hcase.
  induction paths as [| other paths IH]; intros st1 Hcase; simpl.
  - unfold getDownloadURL.
    destruct Hcase as [(p & -> & ->) | (-> & -> & ->)]; done.
  - apply IH. destruct Hcase as [(p & Hp & ->) | (Hp & Hi & ->)].
    + left. exists p. split; [| done]. by apply getDownloadURL_cached.
    + right. split; [| done]. by apply getDownloadURL_inherited.
Qed.

(** What holds of the cache in every state reached from the empty one. *)
Record cacheInvariant (st : StorageState) : Prop := {
  cache_requested : ∀ p, is_Some (urlsCache st !! p) ↔ p ∈ requested st;
  cache_once : NoDup (requested st);
  cache_own : ∀ p, p ∈ requested st → inherited p = false;
  cache_promise : ∀ p i, urlsCache st !! p = Some i → requested st !! i = Some p
}.

Lemma getDownloadURL_invariant st path :
  cacheInvariant st → cacheInvariant (getDownloadURL inherited st path).1.
Proof.
  intros [Hreq Honce Hown Hprom]. unfold getDownloadURL.
  destruct (urlsCache st !! path) as [p |] eqn:Hp; [done |].
  destruct (inherited path) eqn:Hi; [done |]. simpl.
  assert (Hfresh : path ∉ requested st).
  { intros Hin. apply Hreq in Hin as [? ?]. congruence. }
  constructor; simpl.
  - intros p. rewrite elem_of_app, list_elem_of_singleton, <- Hreq.
    destruct (decide (p = path)) as [-> | Hne].
    + rewrite lookup_insert_eq. split; [by right | by eexists].
    + rewrite lookup_insert_ne by done. tauto.
  - apply NoDup_app. split; [done |]. split; [| apply NoDup_singleton].
    intros p Hin Hin'. apply list_elem_of_singleton in Hin'. by subst p.
  - intros p [Hin | ->%list_elem_of_singleton]%elem_of_app; [by apply Hown | done].
  - intros p i. destruct (decide (p = path)) as [-> | Hne].
    + rewrite lookup_insert_eq. intros [= <-].
      by rewrite lookup_app_r, Nat.sub_diag.
    + rewrite lookup_insert_ne by done. intros Hpi.
      apply Hprom in Hpi. by apply lookup_app_l_Some.
Qed.

(** X19: starting from the empty cache, the backend is asked for exactly
    the paths that were requested and are no members of
    [Object.prototype], for each of them once, in the order of their
    first request; the promise cached for a path is the one of its
    request. *)
Theorem backend_asked_once_per_path paths :
  let st := getDownloadURLs inherited emptyStorage paths in
  NoDup (requested st) ∧
  (∀ p, p ∈ requested st ↔ p ∈ paths ∧ inherited p = false) ∧
  (∀ p i, urlsCache st !! p = Some i ↔ requested st !! i = Some p).
Proof.
  intros st.
  assert (Hgen : ∀ s0, cacheInvariant s0 →
    cacheInvariant (getDownloadURLs inherited s0 paths) ∧
    ∀ p, p ∈ requested (getDownloadURLs inherited s0 paths)
         ↔ p ∈ requested s0 ∨ (p ∈ paths ∧ inherited p = false)).
  { clear st. unfold getDownloadURLs.
    induction paths as [| path paths IH]; intros s0 Hinv; simpl.
    - split; [done |]. intros p. split; [by left |].
      intros [H | [H _]]; [done | by apply elem_of_nil in H].
    - destruct (IH _ (getDownloadURL_invariant s0 path Hinv)) as [Hinv' Hreq].
      split; [done |]. intros p. rewrite Hreq, elem_of_cons.
      unfold getDownloadURL.
      destruct (urlsCache s0 !! path) as [i |] eqn:Hp; simpl.
      + assert (Hin : path ∈ requested s0)
          by (apply (cache_requested _ Hinv); by eexists).
        split; [tauto |]. intros [H | [[-> | H] Hi]]; [tauto | tauto | tauto].
      + destruct (inherited path) eqn:Hi; simpl.
        * split; [tauto |].
          intros [H | [[-> | H] Hi']]; [tauto | congruence | tauto].
        * rewrite elem_of_app, list_elem_of_singleton.
          split; [| tauto].
          intros [[H | ->] | H]; [tauto | | tauto]. right. tauto. }
  assert (Hempty : cacheInvariant emptyStorage).
  { constructor; simpl.
    - intros p. rewrite lookup_empty. split; [by intros [? ?] |].
      by intros ?%elem_of_nil.
    - apply NoDup_nil_2.
    - by intros p ?%elem_of_nil.
    - intros p i. by rewrite lookup_empty. }
  destruct (Hgen emptyStorage Hempty) as [Hinv Hreq]. fold st in Hinv, Hreq.
  split; [apply (cache_once _ Hinv) |]. split.
  - intros p. rewrite Hreq. simpl. split; [| tauto].
    intros [H | H]; [by apply elem_of_nil in H | done].
  - intros p i. split; [apply (cache_promise _ Hinv) |].
    intros Hi.
    assert (Hin : p ∈ requested st) by (apply list_elem_of_lookup; by exists i).
    apply (cache_requested _ Hinv) in Hin as [j Hj].
    pose proof (cache_promise _ Hinv p j Hj) as Hj'.
    by rewrite (NoDup_lookup _ i j p (cache_once _ Hinv) Hi Hj').
Qed.

End StorageProperties.

(** * The newsletter form (website/src/partials/Newsletter.tsx) *)

(** ** Regular expressions *)

Module Regex.

(** The regular expressions [validateEmail] needs: character classes,
    concatenation, alternation and iteration.  A test with [^] and [$]
    asks whether the whole string is in the language. *)
Inductive regex :=
| Never
| Eps
| Chr (class : ascii → bool)
| Cat (r s : regex)
| Alt (r s : regex)
| Star (r : regex).

(** [r+], [r?] *)
Definition Plus (r : regex) : regex := Cat r (Star r).
Definition Opt (r : regex) : regex := Alt Eps r.

Fixpoint nullable (r : regex) : bool :=
  match r with
  | Never => false
  | Eps => true
  | Chr _ => false
  | Cat r s => nullable r && nullable s
  | Alt r s => nullable r || nullable s
  | Star _ => true
  end.

(** The expression for what may follow the character [c]. *)
Fixpoint deriv (c : ascii) (r : regex) : regex :=
  match r with
  | Never => Never
  | Eps => Never
  | Chr class => if class c then Eps else Never
  | Cat r s =>
      if nullable r then Alt (Cat (deriv c r) s) (deriv c s)
      else Cat (deriv c r) s
  | Alt r s => Alt (deriv c r) (deriv c s)
  | Star r => Cat (deriv c r) (Star r)
  end.

Fixpoint test (r : regex) (s : string) : bool :=
  match s with
  | EmptyString => nullable r
  | String c s' => test (deriv c r) s'
  end.

(** The language of an expression. *)
Inductive Matches : regex → string → Prop :=
| MEps : Matches Eps ""
| MChr class c : class c = true → Matches (Chr class) (String c "")
| MCat r s x y : Matches r x → Matches s y → Matches (Cat r s) (x +:+ y)
| MAltL r s x : Matches r x → Matches (Alt r s) x
| MAltR r s x : Matches s x → Matches (Alt r s) x
| MStarNil r : Matches (Star r) ""
| MStarCons r x y :
    Matches r x → Matches (Star r) y → Matches (Star r) (x +:+ y).

End Regex.

Section RegexProperties.
Import Regex.

Lemma app_eq_empty x y : x +:+ y = "" → x = "" ∧ y = "".
Proof. destruct x; [done |]. rewrite app_String. discriminate. Qed.

Lemma Matches_Eps_inv w : Matches Eps w → w = "".
Proof. intros H. by inversion H. Qed.

Lemma Matches_Chr_inv class w :
  Matches (Chr class) w → ∃ c, w = String c "" ∧ class c = true.
Proof. intros H. inversion H; subst. by eexists. Qed.

Lemma Matches_Cat_inv r s w :
  Matches (Cat r s) w → ∃ x y, w = x +:+ y ∧ Matches r x ∧ Matches s y.
Proof. intros H. inversion H; subst. by eexists _, _. Qed.

Lemma Matches_Alt_inv r s w :
  Matches (Alt r s) w → Matches r w ∨ Matches s w.
Proof. intros H. inversion H; subst; [by left | by right]. Qed.

Lemma Matches_Never_inv w : ¬ Matches Never w.
Proof. intros H. inversion H. Qed.

Lemma nullable_Matches r : nullable r = true ↔ Matches r "".
Proof.
  induction r as [| | class | r IHr s IHs | r IHr s IHs | r IHr]; simpl.
  - split; [done |]. intros H. by apply Matches_Never_inv in H.
  - split; [constructor | done].
  - split; [done |]. intros H. by apply Matches_Chr_inv in H as (c & ? & _).
  - rewrite andb_true_iff, IHr, IHs. split.
    + intros [Hr Hs]. apply (MCat r s "" ""); done.
    + intros H. apply Matches_Cat_inv in H as (x & y & Heq & Hx & Hy).
      symmetry in Heq. apply app_eq_empty in Heq as [-> ->]. done.
  - rewrite orb_true_iff, IHr, IHs. split.
    + intros [Hr | Hs]; [by apply MAltL | by apply MAltR].
    + apply Matches_Alt_inv.
  - split; [constructor | done].
Qed.

(** A match of [r*] that starts with a character starts with a match of
    [r] that starts with it. *)
Lemma Matches_Star_cons r c z :
  Matches (Star r) (String c z) →
  ∃ x y, z = x +:+ y ∧ Matches r (String c x) ∧ Matches (Star r) y.
Proof.
  intros H. remember (Star r) as sr eqn:Hsr.
  remember (String c z) as w eqn:Hw. revert z Hw.
  induction H as [| | | | | r' | r' x y Hx _ Hy IHy]; intros z Hw;
    try discriminate.
  injection Hsr as ->. destruct x as [| c' x].
  - rewrite app_empty in Hw. by apply IHy.
  - rewrite app_String in Hw. injection Hw as -> <-.
    by exists x, y.
Qed.

Lemma deriv_Matches r : ∀ c z, Matches (deriv c r) z ↔ Matches r (String c z).
Proof.
  induction r as [| | class | r IHr s IHs | r IHr s IHs | r IHr];
    intros c z; simpl.
  - split; intros H; by apply Matches_Never_inv in H.
  - split; intros H; [by apply Matches_Never_inv in H |].
    by apply Matches_Eps_inv in H.
  - destruct (class c) eqn:Hc; split; intros H.
    + apply Matches_Eps_inv in H as ->. by constructor.
    + apply Matches_Chr_inv in H as (c' & [= -> ->] & _). constructor.
    + by apply Matches_Never_inv in H.
    + apply Matches_Chr_inv in H as (c' & [= <- _] & Hc'). congruence.
  - assert (Hcat : Matches (Cat (deriv c r) s) z
                   ↔ ∃ x y, z = x +:+ y ∧ Matches r (String c x) ∧ Matches s y).
    { split.
      - intros H. apply Matches_Cat_inv in H as (x & y & -> & Hx & Hy).
        exists x, y. split; [done |]. split; [by apply IHr | done].
      - intros (x & y & -> & Hx & Hy). constructor; [by apply IHr | done]. }
    assert (Hgoal : Matches (Cat r s) (String c z)
                    ↔ (∃ x y, z = x +:+ y ∧ Matches r (String c x) ∧ Matches s y)
                      ∨ (Matches r "" ∧ Matches s (String c z))).
    { split.
      - intros H. apply Matches_Cat_inv in H as (x & y & Heq & Hx & Hy).
        destruct x as [| c' x].
        + rewrite app_empty in Heq. subst y. by right.
        + rewrite app_String in Heq. injection Heq as <- ->. left.
          by exists x, y.
      - intros [(x & y & -> & Hx & Hy) | [Hx Hy]].
        + rewrite <- app_String. by constructor.
        + rewrite <- (app_empty (String c z)). by constructor. }
    rewrite Hgoal. destruct (nullable r) eqn:Hn.
    + split.
      * intros H. apply Matches_Alt_inv in H as [H | H].
        -- left. by apply Hcat.
        -- right. split; [by apply nullable_Matches | by apply IHs].
      * intros [H | [_ H]]; [apply MAltL; by apply Hcat |].
        apply MAltR. by apply IHs.
    + rewrite Hcat. split; [by left |]. intros [H | [H _]]; [done |].
      apply nullable_Matches in H. congruence.
  - split.
    + intros H. apply Matches_Alt_inv in H as [H | H];
        [apply MAltL; by apply IHr | apply MAltR; by apply IHs].
    + intros H. apply Matches_Alt_inv in H as [H | H];
        [apply MAltL; by apply IHr | apply MAltR; by apply IHs].
  - split.
    + intros H. apply Matches_Cat_inv in H as (x & y & -> & Hx & Hy).
      rewrite <- app_String. constructor; [by apply IHr | done].
    + intros H. apply Matches_Star_cons in H as (x & y & -> & Hx & Hy).
      constructor; [by apply IHr | done].
Qed.

(** The test decides the language. *)
Lemma test_Matches r s : test r s = true ↔ Matches r s.
Proof.
  revert r. induction s as [| c s IH]; intros r; simpl.
  - apply nullable_Matches.
  - by rewrite IH, deriv_Matches.
Qed.

End RegexProperties.

(** ** The form *)

Module Newsletter.
Import Regex.

(** [\w] *)
Definition isWord (c : ascii) : bool :=
  let n := nat_of_ascii c in
  ((48 <=? n)%nat && (n <=? 57)%nat) || ((65 <=? n)%nat && (n <=? 90)%nat)
  || ((97 <=? n)%nat && (n <=? 122)%nat) || (n =? 95)%nat.

(** [[.-]], [\.] and [@] *)
Definition isSeparator (c : ascii) : bool :=
  bool_decide (c = "."%char) || bool_decide (c = "-"%char).
Definition isPeriod (c : ascii) : bool := bool_decide (c = "."%char).
Definition isAt (c : ascii) : bool := bool_decide (c = "@"%char).

(** [\w+([.-]?\w+)*] *)
Definition words : regex :=
  Cat (Plus (Chr isWord)) (Star (Cat (Opt (Chr isSeparator)) (Plus (Chr isWord)))).

(** [\.\w{2,3}] *)
Definition ending : regex :=
  Cat (Chr isPeriod) (Cat (Chr isWord) (Cat (Chr isWord) (Opt (Chr isWord)))).

(** [/^\w+([.-]?\w+)*@\w+([.-]?\w+)*(\.\w{2,3})+$/] *)
Definition emailRegex : regex :=
  Cat words (Cat (Chr isAt) (Cat words (Plus ending))).

Definition validateEmail (email : string) : bool := test emailRegex email.

Record State := mkNewsletter {
  email : string;
  validEmail : bool;
  submitClicked : bool;
  completed : bool;
  loading : bool;
  error : bool;
  policyAccepted : bool
}.

Definition initial : State :=
  {| email := ""; validEmail := false; submitClicked := false;
     completed := false; loading := false; error := false;
     policyAccepted := false |}.

(** The body of the request that is posted. *)
Record Request := mkRequest {
  email_address : string;
  source : string
}.

(** How the [fetch] settles: with a response of some status, or with a
    rejection. *)
Inductive FetchResult :=
| Response (status : nat)
| NetworkError.

Definition handleEmailChange (st : State) (value : string) : State :=
  {| email := value; validEmail := validateEmail value;
     submitClicked := submitClicked st; completed := completed st;
     loading := loading st; error := error st;
     policyAccepted := policyAccepted st |}.

Definition onPolicyChange (st : State) : State :=
  {| email := email st; validEmail := validEmail st;
     submitClicked := submitClicked st; completed := completed st;
     loading := loading st; error := error st;
     policyAccepted := negb (policyAccepted st) |}.

Definition handleSubmit (st : State) : State * option Request :=
  if negb (validEmail st) then
    ({| email := email st; validEmail := validEmail st; submitClicked := true;
        completed := completed st; loading := loading st; error := error st;
        policyAccepted := policyAccepted st |}, None)
  else
    ({| email := email st; validEmail := validEmail st; submitClicked := true;
        completed := completed st; loading := true; error := error st;
        policyAccepted := policyAccepted st |},
     Some {| email_address := email st; source := "landing" |}).

(** The [then] and the [finally] of the request. *)
Definition onSettled (st : State) (result : FetchResult) : State :=
  match result with
  | Response status =>
      if (status <? 300)%nat then
        {| email := email st; validEmail := validEmail st;
           submitClicked := submitClicked st; completed := true;
           loading := false; error := false;
           policyAccepted := policyAccepted st |}
      else
        {| email := email st; validEmail := validEmail st;
           submitClicked := submitClicked st; completed := completed st;
           loading := false; error := true;
           policyAccepted := policyAccepted st |}
  | NetworkError =>
      {| email := email st; validEmail := validEmail st;
         submitClicked := submitClicked st; completed := completed st;
         loading := false; error := error st;
         policyAccepted := policyAccepted st |}
  end.

(** What is rendered of the state. *)
Definition inputDisabled (st : State) : bool := loading st || completed st.

Definition buttonDisabled (st : State) : bool :=
  loading st || completed st || negb (policyAccepted st).

(** The events of the form.  A disabled input takes no change, and a
    form whose submit button is disabled is not submitted. *)
Inductive Event :=
| EmailChange (value : string)
| PolicyChange
| Submit
| Settled (result : FetchResult).

Definition step (st : State) (ev : Event) : State * option Request :=
  match ev with
  | EmailChange value =>
      (if inputDisabled st then st else handleEmailChange st value, None)
  | PolicyChange => (onPolicyChange st, None)
  | Submit => if buttonDisabled st then (st, None) else handleSubmit st
  | Settled result => (onSettled st result, None)
  end.

(** A run of events: the state reached and the requests posted. *)
Fixpoint run (st : State) (evs : list Event) : State * list Request :=
  match evs with
  | [] => (st, [])
  | ev :: evs' =>
      let (st', request) := step st ev in
      let (final, requests) := run st' evs' in
      (final, match request with
              | Some r => r :: requests
              | None => requests
              end)
  end.

End Newsletter.

Section NewsletterProperties.
Import Regex SchemaUtil Newsletter.

(** ** Accepted addresses *)

Fixpoint allChars (Q : ascii → bool) (s : string) : bool :=
  match s with
  | EmptyString => true
  | String c s' => Q c && allChars Q s'
  end.

Lemma allChars_app Q x y :
  allChars Q (x +:+ y) = allChars Q x && allChars Q y.
Proof.
  induction x as [| c x IH]; [done |].
  rewrite app_String. simpl. by rewrite IH, andb_assoc.
Qed.

(** Every character class of an expression lies within [Q]. *)
Fixpoint within (Q : ascii → bool) (r : regex) : Prop :=
  match r with
  | Never | Eps => True
  | Chr class => ∀ c, class c = true → Q c = true
  | Cat r s | Alt r s => within Q r ∧ within Q s
  | Star r => within Q r
  end.

Lemma Matches_within Q r w : within Q r → Matches r w → allChars Q w = true.
Proof.
  intros Hin H. induction H; simpl in Hin; try done.
  - simpl. by rewrite (Hin c).
  - rewrite allChars_app, IHMatches1, IHMatches2; tauto.
  - apply IHMatches. tauto.
  - apply IHMatches. tauto.
  - rewrite allChars_app, IHMatches1, IHMatches2; done.
Qed.

Lemma Matches_Plus_Chr_nonempty class w : Matches (Plus (Chr class)) w → w ≠ "".
Proof.
  intros H. apply Matches_Cat_inv in H as (x & y & -> & Hx & _).
  apply Matches_Chr_inv in Hx as (c & -> & _). discriminate.
Qed.

Lemma Matches_Star_last r w :
  Matches (Star r) w →
  w = "" ∨ ∃ pre last, w = pre +:+ last ∧ Matches r last.
Proof.
  intros H. remember (Star r) as sr eqn:Hsr.
  induction H as [| | | | | r' | r' x y Hx _ Hy IHy]; try discriminate.
  - by left.
  - injection Hsr as ->. right. destruct (IHy eq_refl) as [-> | (pre & last & -> & Hlast)].
    + exists "", x. by rewrite app_empty_r.
    + exists (x +:+ pre), last. by rewrite string_app_assoc.
Qed.

Lemma Matches_Plus_last r w :
  Matches (Plus r) w → ∃ pre last, w = pre +:+ last ∧ Matches r last.
Proof.
  intros H. apply Matches_Cat_inv in H as (x & y & -> & Hx & Hy).
  apply Matches_Star_last in Hy as [-> | (pre & last & -> & Hlast)].
  - exists "", x. by rewrite app_empty_r.
  - exists (x +:+ pre), last. by rewrite string_app_assoc.
Qed.

Lemma isAt_eq c : isAt c = true → c = "@"%char.
Proof. unfold isAt. by rewrite bool_decide_eq_true. Qed.

Lemma isPeriod_eq c : isPeriod c = true → c = "."%char.
Proof. unfold isPeriod. by rewrite bool_decide_eq_true. Qed.

Lemma isWord_not_at c : isWord c = true → negb (isAt c) = true.
Proof.
  intros Hw. destruct (isAt c) eqn:Ha; [| done].
  apply isAt_eq in Ha. subst c. vm_compute in Hw. discriminate.
Qed.

Lemma isWord_not_dot c : isWord c = true → negb (isDot c) = true.
Proof.
  intros Hw. destruct (isDot c) eqn:Hd; [| done].
  unfold isDot in Hd. apply bool_decide_eq_true in Hd. subst c.
  vm_compute in Hw. discriminate.
Qed.

Lemma isSeparator_not_at c : isSeparator c = true → negb (isAt c) = true.
Proof.
  unfold isSeparator. rewrite orb_true_iff, !bool_decide_eq_true.
  intros [-> | ->]; reflexivity.
Qed.

Lemma words_no_at : within (λ c, negb (isAt c)) words.
Proof.
  simpl. repeat split;
    first [exact isWord_not_at | exact isSeparator_not_at | done].
Qed.

Lemma ending_no_at : within (λ c, negb (isAt c)) (Plus ending).
Proof.
  assert (Hp : ∀ c, isPeriod c = true → negb (isAt c) = true).
  { intros c ->%isPeriod_eq. reflexivity. }
  simpl. repeat split; first [exact isWord_not_at | exact Hp | done].
Qed.

Lemma allChars_dotFree t :
  allChars isWord t = true → dotFree t = true.
Proof.
  induction t as [| c t IH]; [done |]. simpl.
  rewrite !andb_true_iff. intros [Hc Ht].
  split; [by apply isWord_not_dot | by apply IH].
Qed.

(** X20: an address that [validateEmail] accepts holds exactly one at
    sign, with something before it and something after it. *)
Theorem validateEmail_one_at s :
  validateEmail s = true →
  ∃ l d, s = l +:+ String "@" d ∧ l ≠ "" ∧ d ≠ "" ∧
         allChars (λ c, negb (isAt c)) l = true ∧
         allChars (λ c, negb (isAt c)) d = true.
Proof.
  intros H. apply test_Matches in H.
  apply Matches_Cat_inv in H as (l & rest & -> & Hl & H).
  apply Matches_Cat_inv in H as (a & rest' & -> & Ha & H).
  apply Matches_Cat_inv in H as (w & e & -> & Hw & He).
  apply Matches_Chr_inv in Ha as (c & -> & ->%isAt_eq).
  exists l, (w +:+ e). split; [done |].
  pose proof (Matches_within _ _ _ words_no_at Hl) as Hlq.
  pose proof (Matches_within _ _ _ words_no_at Hw) as Hwq.
  pose proof (Matches_within _ _ _ ending_no_at He) as Heq.
  assert (Hne : ∀ x, Matches words x → x ≠ "").
  { intros x Hx. apply Matches_Cat_inv in Hx as (x1 & x2 & -> & Hx1 & _).
    apply Matches_Plus_Chr_nonempty in Hx1. by destruct x1. }
  split; [by apply Hne |]. split.
  { apply Hne in Hw. by destruct w. }
  split; [done |]. by rewrite allChars_app, Hwq, Heq.
Qed.

Lemma validateEmail_one_at_witness :
  validateEmail "john.doe@example.com" = true ∧
  ∃ l d, "john.doe@example.com" = l +:+ String "@" d ∧ l ≠ "" ∧ d ≠ "".
Proof.
  assert (H : validateEmail "john.doe@example.com" = true)
    by (vm_compute; reflexivity).
  split; [exact H |].
  destruct (validateEmail_one_at _ H) as (l & d & Heq & Hl & Hd & _).
  exists l, d. split; [exact Heq |]. split; [exact Hl | exact Hd].
Defined.

Lemma Matches_ending last :
  Matches ending last →
  ∃ t, last = String "." t ∧ (String.length t = 2 ∨ String.length t = 3)
       ∧ allChars isWord t = true.
Proof.
  intros H.
  apply Matches_Cat_inv in H as (p & r1 & -> & Hp & H).
  apply Matches_Cat_inv in H as (a & r2 & -> & Ha & H).
  apply Matches_Cat_inv in H as (b & r3 & -> & Hb & H).
  apply Matches_Chr_inv in Hp as (cp & -> & ->%isPeriod_eq).
  apply Matches_Chr_inv in Ha as (ca & -> & Hca).
  apply Matches_Chr_inv in Hb as (cb & -> & Hcb).
  apply Matches_Alt_inv in H as [->%Matches_Eps_inv | H].
  - exists (String ca (String cb "")). split; [done |].
    split; [by left |]. simpl. by rewrite Hca, Hcb.
  - apply Matches_Chr_inv in H as (cc & -> & Hcc).
    exists (String ca (String cb (String cc ""))). split; [done |].
    split; [by right |]. simpl. by rewrite Hca, Hcb, Hcc.
Qed.

(** X21: an address that [validateEmail] accepts ends with a period
    and two or three word characters.  So an address whose text after
    the last period is shorter or longer, or that holds no period, is
    rejected. *)
Theorem validateEmail_ending s :
  (validateEmail s = true →
   ∃ pre t, s = pre +:+ String "." t ∧
            (String.length t = 2 ∨ String.length t = 3) ∧
            allChars isWord t = true) ∧
  (∀ pre t, s = pre +:+ String "." t → dotFree t = true →
     String.length t ≠ 2 → String.length t ≠ 3 → validateEmail s = false) ∧
  (dotFree s = true → validateEmail s = false).
Proof.
  assert (Hend : validateEmail s = true →
    ∃ pre t, s = pre +:+ String "." t ∧
             (String.length t = 2 ∨ String.length t = 3) ∧
             allChars isWord t = true).
  { intros H. apply test_Matches in H.
    apply Matches_Cat_inv in H as (l & rest & -> & _ & H).
    apply Matches_Cat_inv in H as (a & rest' & -> & _ & H).
    apply Matches_Cat_inv in H as (w & e & -> & _ & He).
    apply Matches_Plus_last in He as (pre & last & -> & Hlast).
    apply Matches_ending in Hlast as (t & -> & Hlen & Hword).
    exists (l +:+ a +:+ w +:+ pre), t. by rewrite !string_app_assoc. }
  split; [done |]. split.
  - intros pre t -> Ht Hn2 Hn3.
    destruct (validateEmail _) eqn:Hv; [| done].
    destruct (Hend eq_refl) as (pre' & t' & Heq & Hlen & Hword).
    assert (Ht' : dotFree t' = true) by by apply allChars_dotFree.
    assert (t = t').
    { rewrite <- (lastSegment_dotted pre t Ht),
        <- (lastSegment_dotted pre' t' Ht').
      unfold dotted. by f_equal. }
    subst t'. lia.
  - intros Hfree. destruct (validateEmail s) eqn:Hv; [| done].
    destruct (Hend eq_refl) as (pre & t & -> & _).
    by rewrite dotFree_dotted_tail in Hfree.
Qed.

Lemma validateEmail_ending_witness :
  dotFree "info" = true ∧
  validateEmail ("john@example" +:+ String "." "info") = false ∧
  validateEmail "john@example.com" = true.
Proof.
  split; [reflexivity |]. split; [| vm_compute; reflexivity].
  apply (proj1 (proj2 (validateEmail_ending "john@example.info"))
           "john@example" "info"); [reflexivity | reflexivity | |];
    discriminate.
Defined.

(** ** The requests of the form *)

Lemma run_cons st ev evs :
  run st (ev :: evs)
  = ((run (step st ev).1 evs).1,
     match (step st ev).2 with
     | Some r => r :: (run (step st ev).1 evs).2
     | None => (run (step st ev).1 evs).2
     end).
Proof.
  cbn [run]. destruct (step st ev) as [st' request]. cbn [fst snd].
  by destruct (run st' evs).
Qed.

Lemma step_validEmail st ev :
  validEmail st = validateEmail (email st) →
  validEmail (step st ev).1 = validateEmail (email (step st ev).1).
Proof.
  intros Hinv. destruct ev as [value | | | result]; simpl.
  - by destruct (inputDisabled st).
  - done.
  - destruct (buttonDisabled st); [done |].
    unfold handleSubmit. by destruct (validEmail st).
  - destruct result as [status |]; simpl; [| done].
    by destruct (status <? 300)%nat.
Qed.

(** X22: whatever is done with the form, every request that is posted
    carries an address that [validateEmail] accepts, and the source
    [landing]. *)
Theorem requests_carry_valid_email evs r :
  r ∈ (run initial evs).2 →
  validateEmail (email_address r) = true ∧ source r = "landing".
Proof.
  assert (Hgen : ∀ st, validEmail st = validateEmail (email st) →
    r ∈ (run st evs).2 →
    validateEmail (email_address r) = true ∧ source r = "landing").
  { induction evs as [| ev evs IH]; intros st Hinv Hin.
    - by apply elem_of_nil in Hin.
    - rewrite run_cons in Hin. simpl in Hin.
      pose proof (step_validEmail st ev Hinv) as Hinv'.
      destruct (step st ev).2 as [r' |] eqn:Hreq; [| by apply (IH _ Hinv')].
      apply elem_of_cons in Hin as [-> | Hin]; [| by apply (IH _ Hinv')].
      destruct ev as [value | | | result]; simpl in Hreq; try done.
      destruct (buttonDisabled st); [done |].
      unfold handleSubmit in Hreq.
      destruct (validEmail st) eqn:Hvalid; simpl in Hreq; [| done].
      injection Hreq as <-. simpl. by rewrite <- Hinv. }
  apply Hgen. vm_compute. reflexivity.
Qed.

Lemma requests_carry_valid_email_witness :
  (run initial [PolicyChange; EmailChange "john@example.com"; Submit;
                EmailChange "x"; Settled (Response 200); Submit]).2
  = [{| email_address := "john@example.com"; source := "landing" |}] ∧
  validateEmail "john@example.com" = true.
Proof.
  split; [vm_compute; reflexivity |].
  apply (requests_carry_valid_email
           [PolicyChange; EmailChange "john@example.com"; Submit;
            EmailChange "x"; Settled (Response 200); Submit]
           {| email_address := "john@example.com"; source := "landing" |}).
  vm_compute. left.
Defined.

(** X23: once the sign-up is completed it stays completed, the address
    cannot be changed and nothing more is posted. *)
Theorem completed_is_final st evs :
  completed st = true →
  completed (run st evs).1 = true ∧
  email (run st evs).1 = email st ∧
  (run st evs).2 = [].
Proof.
  revert st. induction evs as [| ev evs IH]; intros st Hdone; [done |].
  rewrite run_cons. simpl.
  assert (Hstep : completed (step st ev).1 = true
                  ∧ email (step st ev).1 = email st
                  ∧ (step st ev).2 = None).
  { destruct ev as [value | | | result]; simpl.
    - unfold inputDisabled. rewrite Hdone, orb_true_r. done.
    - done.
    - unfold buttonDisabled. rewrite Hdone, orb_true_r. done.
    - destruct result as [status |]; simpl; [| done].
      by destruct (status <? 300)%nat. }
  destruct Hstep as (Hc & He & Hr).
  destruct (IH _ Hc) as (Hc' & He' & Hr').
  rewrite Hr, Hc', He', He, Hr'. done.
Qed.

Lemma completed_is_final_witness :
  completed (run initial [PolicyChange; EmailChange "john@example.com";
                          Submit; Settled (Response 200)]).1 = true ∧
  (run (run initial [PolicyChange; EmailChange "john@example.com";
                     Submit; Settled (Response 200)]).1
     [EmailChange "jane@example.com"; Submit]).2 = [].
Proof.
  assert (H : completed (run initial [PolicyChange;
                EmailChange "john@example.com"; Submit;
                Settled (Response 200)]).1 = true)
    by (vm_compute; reflexivity).
  split; [exact H |].
  exact (proj2 (proj2 (completed_is_final _
                         [EmailChange "jane@example.com"; Submit] H))).
Defined.

(** X24: as long as the policy box is not ticked, nothing is posted. *)
Theorem no_request_without_policy st evs :
  policyAccepted st = false → PolicyChange ∉ evs →
  (run st evs).2 = [] ∧ policyAccepted (run st evs).1 = false.
Proof.
  revert st. induction evs as [| ev evs IH]; intros st Hpolicy Hnone; [done |].
  rewrite run_cons. simpl.
  assert (Hstep : policyAccepted (step st ev).1 = false
                  ∧ (step st ev).2 = None).
  { destruct ev as [value | | | result]; simpl.
    - by destruct (inputDisabled st).
    - exfalso. apply Hnone. left.
    - unfold buttonDisabled. rewrite Hpolicy. simpl. by rewrite orb_true_r.
    - destruct result as [status |]; simpl; [| done].
      by destruct (status <? 300)%nat. }
  destruct Hstep as [Hp Hr].
  destruct (IH _ Hp) as [Hr' Hp'].
  { intros Hin. apply Hnone. by right. }
  by rewrite Hr, Hr', Hp'.
Qed.

Lemma no_request_without_policy_witness :
  policyAccepted initial = false ∧
  (PolicyChange ∉ [EmailChange "john@example.com"; Submit]) ∧
  (run initial [EmailChange "john@example.com"; Submit]).2 = [].
Proof.
  assert (Hnone : PolicyChange ∉ [EmailChange "john@example.com"; Submit]).
  { intros H. apply list_elem_of_In in H. simpl in H.
    destruct H as [H | [H | []]]; discriminate. }
  split; [reflexivity |]. split; [exact Hnone |].
  exact (proj1 (no_request_without_policy initial
                  [EmailChange "john@example.com"; Submit] eq_refl Hnone)).
Defined.

End NewsletterProperties.

(** * The tooltip of the bulk-delete button *)

Section BulkDeleteTooltip.
Import EntityCollectionTable Examples.

(** X25: where the bulk-delete button is rendered, its tooltip says that
    an entity cannot be deleted exactly when some selected entity fails
    [canDelete]; an enabled button always has the tooltip
    [Multiple delete]; and with nothing selected the button is disabled
    under that same tooltip. *)
Theorem multipleDeleteButton_tooltip (canDelete : Entity → bool)
    (largeLayout : bool) (selectedEntities : list Entity) :
  ∃ button,
    multipleDeleteButton canDelete true largeLayout selectedEntities
    = Some button ∧
    (tooltip button = "You have selected one entity you cannot delete"
     ↔ ∃ entity, entity ∈ selectedEntities ∧ canDelete entity = false) ∧
    (disabled button = false → tooltip button = "Multiple delete") ∧
    (selectedEntities = [] →
       disabled button = true ∧ tooltip button = "Multiple delete" ∧
       shownCount button = if largeLayout then Some 0%nat else None).
Proof.
  eexists. split; [reflexivity |]. simpl.
  unfold multipleDeleteDisabled, multipleDeleteEnabled.
  assert (Hall : forallb canDelete selectedEntities = false
                 ↔ ∃ entity, entity ∈ selectedEntities ∧ canDelete entity = false).
  { induction selectedEntities as [| e sel IH]; simpl.
    - split; [done |]. intros (x & Hx & _). by apply elem_of_nil in Hx.
    - rewrite andb_false_iff, IH. split.
      + intros [He | (x & Hx & Hc)]; [exists e | exists x];
          (split; [| done]); [left | by right].
      + intros (x & [-> | Hx]%elem_of_cons & Hc); [by left |].
        right. by exists x. }
  split; [| split].
  - rewrite <- Hall.
    destruct (forallb canDelete selectedEntities); split; done.
  - intros [_ Hen]%orb_false_iff. apply negb_false_iff in Hen.
    by rewrite Hen.
  - intros ->. simpl. done.
Qed.

End BulkDeleteTooltip.
